(** * Acronym bot: store, formatter, command router and interaction tokens

    A shallow embedding of [src/app.py] (the [/wtf] bot; the older
    [src/acronym_bot/app.py] has the same store functions and a router
    without the edit flow).

    Modelling choices.
    - A Python [str] is a [string]; the model covers ASCII text.  On ASCII
      [str.strip] removes the code points 9-13, 28-31 and 32 at both ends, and
      [str.upper]/[str.lower] change the 26 letters only.
    - The SQLite table [acronyms] is the list of its rows in rowid order,
      together with the AUTOINCREMENT counter of [sqlite_sequence]; a query
      [ORDER BY id ASC] sorts what it selected.
    - [int(time.time())] is an input of [add_acronym].
    - What a handler does to the outside world (ack, respond, open a view,
      call a store function) is the list of effects it returns.
    - [re.sub(r"<@[^>]+>", "", s)] of the mention handler is a scan from the
      left that leaves out every match and keeps every other character. *)

From Stdlib Require Import ZArith List Bool Lia Ascii String.
From Stdlib Require Import Sorting.Sorted Permutation.
From Stdlib Require Import Decimal DecimalString DecimalZ.
Import ListNotations.

Open Scope string_scope.
Open Scope Z_scope.

(** ** Python string operations *)

Module PyStr.

(** [str.isspace] on one ASCII character: TAB, LF, VT, FF, CR, the four
    separators FS, GS, RS, US, and the space. *)
Definition is_space (c : ascii) : bool :=
  let n := nat_of_ascii c in
  ((9 <=? n)%nat && (n <=? 13)%nat) || ((28 <=? n)%nat && (n <=? 32)%nat).

Definition is_lower (c : ascii) : bool :=
  let n := nat_of_ascii c in (97 <=? n)%nat && (n <=? 122)%nat.

Definition is_upper (c : ascii) : bool :=
  let n := nat_of_ascii c in (65 <=? n)%nat && (n <=? 90)%nat.

Definition upper_char (c : ascii) : ascii :=
  if is_lower c then ascii_of_nat (nat_of_ascii c - 32) else c.

Definition lower_char (c : ascii) : ascii :=
  if is_upper c then ascii_of_nat (nat_of_ascii c + 32) else c.

(** [s.upper()] and [s.lower()]. *)
Fixpoint upper (s : string) : string :=
  match s with
  | EmptyString => EmptyString
  | String c s' => String (upper_char c) (upper s')
  end.

Fixpoint lower (s : string) : string :=
  match s with
  | EmptyString => EmptyString
  | String c s' => String (lower_char c) (lower s')
  end.

(** [s.lstrip()], [s.rstrip()] and [s.strip()]. *)
Fixpoint lstrip (s : string) : string :=
  match s with
  | EmptyString => EmptyString
  | String c s' => if is_space c then lstrip s' else s
  end.

Fixpoint rstrip (s : string) : string :=
  match s with
  | EmptyString => EmptyString
  | String c s' =>
      match rstrip s' with
      | EmptyString => if is_space c then EmptyString else String c EmptyString
      | r => String c r
      end
  end.

Definition strip (s : string) : string := rstrip (lstrip s).

(** Truth value of a string: [not s] holds for the empty string only. *)
Definition is_empty (s : string) : bool :=
  match s with EmptyString => true | _ => false end.

(** [s.startswith(p)]. *)
Definition startswith (s p : string) : bool := String.prefix p s.

(** The first maximal run of characters that are not white space, and what
    follows it. *)
Fixpoint break_word (s : string) : string * string :=
  match s with
  | EmptyString => (EmptyString, EmptyString)
  | String c s' =>
      if is_space c then (EmptyString, s)
      else let (w, r) := break_word s' in (String c w, r)
  end.

(** [s.split(None, maxsplit)]: runs of white space separate the words, leading
    white space is skipped, and after [maxsplit] words the rest is kept as it
    is (without its leading white space). *)
Fixpoint split_ws (maxsplit : nat) (s : string) : list string :=
  let s1 := lstrip s in
  if is_empty s1 then []
  else match maxsplit with
       | O => [s1]
       | S k => let (w, r) := break_word s1 in w :: split_ws k r
       end.

(** [s.split(sep, 1)] for a one-character separator: at most one cut, at the
    first occurrence of the separator. *)
Fixpoint split1 (sep : ascii) (s : string) : list string :=
  match s with
  | EmptyString => [EmptyString]
  | String c s' =>
      if Ascii.eqb c sep then [EmptyString; s']
      else match split1 sep s' with
           | h :: t => String c h :: t
           | [] => [String c EmptyString]
           end
  end.

(** [a, b = xs]: unpacking into two names raises [ValueError] unless the list
    has two elements. *)
Definition unpack2 (xs : list string) : option (string * string) :=
  match xs with
  | [a; b] => Some (a, b)
  | _ => None
  end.

(** [str(n)] for an integer. *)
Definition str_of_int (n : Z) : string := NilZero.string_of_int (Z.to_int n).

(** [str(n)] for a length. *)
Definition str_of_nat (n : nat) : string := str_of_int (Z.of_nat n).

(** ["\n".join(lines)]. *)
Fixpoint join (sep : string) (lines : list string) : string :=
  match lines with
  | [] => EmptyString
  | [l] => l
  | l :: rest => l ++ sep ++ join sep rest
  end.

Definition newline : string := String (ascii_of_nat 10) EmptyString.

(** The digits of an [int(...)] argument: single underscores may stand between
    two digits and are dropped. *)
Fixpoint drop_underscores (after_digit : bool) (s : string) : option string :=
  match s with
  | EmptyString => if after_digit then Some EmptyString else None
  | String c s' =>
      if Ascii.eqb c "_" then
        if after_digit then drop_underscores false s' else None
      else option_map (String c) (drop_underscores true s')
  end.

(** The white space [int] skips around a number in an ASCII string: TAB, LF,
    VT, FF, CR and the space, but not the separators FS, GS, RS, US that
    [str.strip] removes. *)
Definition is_int_space (c : ascii) : bool :=
  let n := nat_of_ascii c in
  ((9 <=? n)%nat && (n <=? 13)%nat) || (n =? 32)%nat.

Fixpoint int_lstrip (s : string) : string :=
  match s with
  | EmptyString => EmptyString
  | String c s' => if is_int_space c then int_lstrip s' else s
  end.

Fixpoint int_rstrip (s : string) : string :=
  match s with
  | EmptyString => EmptyString
  | String c s' =>
      match int_rstrip s' with
      | EmptyString =>
          if is_int_space c then EmptyString else String c EmptyString
      | r => String c r
      end
  end.

(** [int(s)]: white space around the number is skipped, a sign may come
    first, then decimal digits; [None] is [ValueError].  The limit CPython
    puts on the number of digits of a conversion is not modelled. *)
Definition py_int (s : string) : option Z :=
  let s1 := int_rstrip (int_lstrip s) in
  let '(negative, body) :=
    match s1 with
    | String "-" r => (true, r)
    | String "+" r => (false, r)
    | _ => (false, s1)
    end in
  match drop_underscores false body with
  | Some ds =>
      match NilEmpty.uint_of_string ds with
      | Some u => Some (if negative then - Z.of_uint u else Z.of_uint u)
      | None => None
      end
  | None => None
  end.

End PyStr.

Import PyStr.

(** ** The store: table [acronyms] and the functions over it *)

Module Store.

(** One row of [acronyms (id, term, expansion, created_at)]. *)
Record row : Type := mkRow {
  id : Z;
  term : string;
  expansion : string;
  created_at : Z
}.

(** The database file: the rows of the table and the value that
    [sqlite_sequence] keeps for it (the largest rowid the table ever held). *)
Record db : Type := mkDb {
  rows : list row;
  seq : Z
}.

Definition empty_db : db := mkDb [] 0.

(** [init_db]: [CREATE TABLE IF NOT EXISTS] builds the empty table when the
    file has none and leaves an existing one alone. *)
Definition init_db (file : option db) : db :=
  match file with
  | Some d => d
  | None => empty_db
  end.

(** A value bound to a [?] of a statement: Python binds an [int] as INTEGER
    and a [str] as TEXT. *)
Inductive sqlval : Type :=
| SqlInt (n : Z)
| SqlText (s : string).

(** The integers SQLite stores, and the ones Python can bind to a [?]: a
    Python [int] outside this range makes [execute] raise [OverflowError]. *)
Definition in_int64 (n : Z) : bool :=
  (- 2 ^ 63 <=? n) && (n <=? 2 ^ 63 - 1).

(** The integer an all-digit text with an optional minus sign denotes. *)
Definition integer_literal (s : string) : option Z :=
  match NilEmpty.int_of_string s with
  | Some (Decimal.Pos Decimal.Nil) | Some (Decimal.Neg Decimal.Nil) => None
  | Some i => Some (Z.of_int i)
  | None => None
  end.

(** [id = ?]: the column has INTEGER affinity, so SQLite converts a TEXT
    operand that is a number before it compares.  The model converts integer
    literals (what [str(id)] yields); any other text matches no row here. *)
Definition id_matches (v : sqlval) (i : Z) : bool :=
  match v with
  | SqlInt n => i =? n
  | SqlText s =>
      match integer_literal s with
      | Some n => i =? n
      | None => false
      end
  end.

Definition ids (l : list row) : list Z := map id l.

Definition max_id (l : list row) : Z := fold_right Z.max 0 (ids l).

(** The rowid AUTOINCREMENT gives the next row: one more than the largest
    rowid the table holds or ever held. *)
Definition next_id (d : db) : Z := Z.max (seq d) (max_id (rows d)) + 1.

(** [INSERT INTO acronyms (term, expansion, created_at) VALUES (?, ?, ?)]. *)
Definition sql_insert (t e : string) (now : Z) (d : db) : db :=
  let i := next_id d in
  mkDb (rows d ++ [mkRow i t e now])%list i.

(** [ORDER BY id ASC]. *)
Fixpoint insert_by_id (r : row) (l : list row) : list row :=
  match l with
  | [] => [r]
  | x :: l' => if id r <=? id x then r :: l else x :: insert_by_id r l'
  end.

Definition order_by_id (l : list row) : list row :=
  fold_right insert_by_id [] l.

(** [WHERE term = ?] with the default (binary) collation. *)
Definition where_term (t : string) (l : list row) : list row :=
  filter (fun r => String.eqb (term r) t) l.

(** [add_acronym(term, expansion)]; [now] is [int(time.time())]. *)
Definition add_acronym (now : Z) (term0 expansion0 : string) (d : db) : db :=
  let term_clean := upper (strip term0) in
  let expansion_clean := strip expansion0 in
  if is_empty term_clean || is_empty expansion_clean then d
  else sql_insert term_clean expansion_clean now d.

(** [get_acronyms(term)]. *)
Definition get_acronyms (term0 : string) (d : db) : list string :=
  let term_clean := upper (strip term0) in
  map expansion (order_by_id (where_term term_clean (rows d))).

(** [get_acronym_ids_and_expansions(term)]. *)
Definition get_acronym_ids_and_expansions (term0 : string) (d : db)
  : list (Z * string) :=
  let term_clean := upper (strip term0) in
  map (fun r => (id r, expansion r))
      (order_by_id (where_term term_clean (rows d))).

(** [DELETE FROM acronyms WHERE id = ?]; [sqlite_sequence] is not touched. *)
Definition sql_delete (v : sqlval) (d : db) : db :=
  mkDb (filter (fun r => negb (id_matches v (id r))) (rows d)) (seq d).

(** [delete_acronym_by_id(acronym_id)]. *)
Definition delete_acronym_by_id (acronym_id : Z) (d : db) : db :=
  sql_delete (SqlInt acronym_id) d.

(** [UPDATE acronyms SET expansion = ? WHERE id = ?]. *)
Definition set_expansion (e : string) (r : row) : row :=
  mkRow (id r) (term r) e (created_at r).

Definition sql_update_expansion (new_exp : string) (v : sqlval) (d : db) : db :=
  mkDb (map (fun r => if id_matches v (id r) then set_expansion new_exp r else r)
            (rows d))
       (seq d).

(** The store part of [handle_edit_view]: the value of the form field is
    stripped and written only when something is left. *)
Definition update_expansion (v : sqlval) (value : string) (d : db) : db :=
  let new_exp := strip value in
  if is_empty new_exp then d else sql_update_expansion new_exp v d.

(** [SELECT expansion FROM acronyms WHERE id = ?] with [fetchone()], as
    [handle_edit_select] and [handle_delete_select] run it. *)
Definition fetch_expansion (v : sqlval) (d : db) : option string :=
  match filter (fun r => id_matches v (id r)) (rows d) with
  | r :: _ => Some (expansion r)
  | [] => None
  end.

End Store.

Import Store.

(** ** The formatter *)

(** [enumerate(xs, start)]. *)
Definition enumerate {A : Type} (start : nat) (xs : list A) : list (nat * A) :=
  combine (List.seq start (List.length xs)) xs.

(** [format_defs(term, expansions)]. *)
Definition format_defs (term0 : string) (expansions : list string) : string :=
  let term_clean := upper (strip term0) in
  match expansions with
  | [] => "Nothing for *" ++ term_clean ++ "* yet. Try `/wtf add` to submit one."
  | _ =>
      let lines :=
        ["*" ++ term_clean ++ "* has " ++ str_of_nat (List.length expansions)
             ++ " meaning(s):"] in
      let lines :=
        fold_left (fun (acc : list string) (p : nat * string) =>
                     List.app acc [str_of_nat (fst p) ++ ". " ++ snd p])
                  (enumerate 1 expansions) lines in
      join newline lines
  end.

(** ** Handlers: the command router and the interaction handlers *)

Module Bot.

Inductive response_type : Type := Ephemeral | InChannel.

Record button : Type := mkButton {
  btn_text : string;
  btn_style : string;
  btn_action_id : string;
  btn_value : string
}.

Inductive block : Type :=
| SectionBlock (text : string) (accessory : option button)
| ActionsBlock (elements : list button)
| InputBlock (block_id label action_id : string) (multiline : bool)
             (initial_value : option string).

Record view : Type := mkView {
  callback_id : string;
  title : string;
  submit : string;
  close : string;
  private_metadata : string;
  blocks : list block
}.

(** The store functions and statements a handler runs. *)
Inductive store_call : Type :=
| GetAcronyms (term0 : string)
| GetIdsAndExpansions (term0 : string)
| FetchExpansion (v : sqlval)
| AddAcronym (term0 expansion0 : string)
| UpdateExpansion (v : sqlval) (new_exp : string)
| DeleteById (acronym_id : Z).

(** What a handler does, in the order it does it. *)
Inductive effect : Type :=
| Ack
| Respond (text : string) (rt : response_type) (replace_original : bool)
| RespondBlocks (bs : list block) (rt : response_type) (replace_original : bool)
| ViewsOpen (trigger_id : string) (v : view)
| PostEphemeral (channel user text : string)
| StoreCall (c : store_call).

(** How a handler ends: it returns, or an exception leaves it. *)
Inductive completion : Type := Returned | Raised (exception : string).

(** The fields of the slash command's payload the handler reads. *)
Record command : Type := mkCommand {
  cmd_text : option string;
  cmd_trigger_id : string;
  cmd_channel_id : option string
}.

(** [x or ""] and [d.get(k, "")]. *)
Definition or_empty (x : option string) : string :=
  match x with
  | Some t => t
  | None => EmptyString
  end.

(** The modal of [/wtf add]. *)
Definition add_view (channel prefill_term : string) : view :=
  mkView "add_acronym" "Add Acronym" "Save" "Cancel" channel
    [ InputBlock "term" "Acronym (e.g., ATO)" "t" false
        (if is_empty prefill_term then None else Some prefill_term);
      InputBlock "exp" "Expansion (meaning)" "e" true None ].

(** The token a button carries: [f"{acronym_id}|{term}"]. *)
Definition token (acronym_id : string) (term0 : string) : string :=
  acronym_id ++ "|" ++ term0.

(** The message that lists the definitions of a term with one button each and
    a cancel button, as [/wtf delete] and [/wtf edit] build it. *)
Definition select_blocks (verb label style action_id cancel_action : string)
    (term0 : string) (rs : list (Z * string)) : list block :=
  let header :=
    SectionBlock ("*" ++ upper term0 ++ "* has " ++ str_of_nat (List.length rs)
                  ++ " meaning(s). Which one do you want to " ++ verb ++ "?")
                 None in
  let bs :=
    fold_left (fun (acc : list block) (p : nat * (Z * string)) =>
                 let '(idx, (acronym_id, expansion0)) := p in
                 List.app acc
                   [SectionBlock (str_of_nat idx ++ ". " ++ expansion0)
                      (Some (mkButton label style action_id
                               (token (str_of_int acronym_id) term0)))])
              (enumerate 1 rs) [header] in
  List.app bs [ActionsBlock [mkButton "Cancel" "primary" cancel_action term0]].

(** The branch shared by [/wtf delete <TERM>] and [/wtf edit <TERM>]. *)
Definition select_flow (usage verb label style action_id cancel_action : string)
    (text : string) (d : db) : list effect :=
  let parts := split_ws 2 text in
  match parts with
  | _ :: term0 :: _ =>
      let rs := get_acronym_ids_and_expansions term0 d in
      match rs with
      | [] =>
          [Ack; StoreCall (GetIdsAndExpansions term0);
           Respond ("No definitions found for *" ++ upper term0 ++ "*.")
                   Ephemeral false]
      | _ =>
          [Ack; StoreCall (GetIdsAndExpansions term0);
           RespondBlocks
             (select_blocks verb label style action_id cancel_action term0 rs)
             Ephemeral false]
      end
  | _ => [Ack; Respond usage Ephemeral false]
  end.

(** [handle_acronym]: the router of the slash command.  It only reads the
    store. *)
Definition handle_acronym (c : command) (d : db) : list effect :=
  let text := strip (or_empty (cmd_text c)) in
  if is_empty text then
    [Ack; Respond "Usage: `/wtf ATO` or `/wtf add`" Ephemeral false]
  else if startswith (lower text) "add" then
    let parts := split_ws 2 text in
    let prefill_term :=
      match parts with
      | _ :: p :: _ => upper p
      | _ => EmptyString
      end in
    [Ack; ViewsOpen (cmd_trigger_id c)
            (add_view (or_empty (cmd_channel_id c)) prefill_term)]
  else if startswith (lower text) "delete" then
    select_flow "Usage: `/wtf delete [acronym]`" "delete" "Delete" "danger"
      "delete_acronym_select" "delete_acronym_cancel" text d
  else if startswith (lower text) "edit" then
    select_flow "Usage: `/wtf edit [acronym]`" "edit" "Edit" "primary"
      "edit_acronym_select" "edit_acronym_cancel" text d
  else
    let expansions := get_acronyms text d in
    [Ack; StoreCall (GetAcronyms text);
     Respond (format_defs text expansions)
             (match expansions with [] => Ephemeral | _ => InChannel end)
             false].

(** [aid, term = value.split("|", 1)]. *)
Definition parse_token (value : string) : option (string * string) :=
  unpack2 (split1 "|" value).

(** [handle_edit_select]: opens the edit modal on the chosen definition. *)
Definition handle_edit_select (trigger_id value : string) (d : db)
  : list effect * completion :=
  match parse_token value with
  | None => ([Ack], Raised "ValueError")
  | Some (aid, term0) =>
      let exp := match fetch_expansion (SqlText aid) d with
                 | Some e => e
                 | None => EmptyString
                 end in
      ([Ack; StoreCall (FetchExpansion (SqlText aid));
        ViewsOpen trigger_id
          (mkView "edit_acronym_modal" "Edit Definition" "Save" "Cancel"
             (token aid term0)
             [ SectionBlock ("*" ++ upper term0 ++ "*") None;
               InputBlock "exp_edit" "Edit Expansion (meaning)" "e_edit" true
                 (Some exp) ])],
       Returned)
  end.

(** [handle_edit_view]: the submission of the edit modal; [meta] is the view's
    private metadata and [value] what the user typed. *)
Definition handle_edit_view (user_id meta value : string) (d : db)
  : db * list effect * completion :=
  match parse_token meta with
  | None => (d, [Ack], Raised "ValueError")
  | Some (aid, term0) =>
      let new_exp := strip value in
      let d' := update_expansion (SqlText aid) value d in
      let write :=
        if is_empty new_exp then []
        else [StoreCall (UpdateExpansion (SqlText aid) new_exp)] in
      let channel_id := meta in
      let notice :=
        if is_empty channel_id then []
        else [PostEphemeral channel_id user_id
                ("Updated: *" ++ upper term0 ++ "* → " ++ new_exp)] in
      (d',
       List.app (Ack :: write)
         (List.app notice
            [PostEphemeral user_id user_id
               ("Updated definition for *" ++ upper term0 ++ "*.")]),
       Returned)
  end.

(** [handle_delete_select]: asks for confirmation, showing the definition. *)
Definition handle_delete_select (value : string) (d : db)
  : list effect * completion :=
  match parse_token value with
  | None => ([Ack], Raised "ValueError")
  | Some (aid, term0) =>
      let exp := match fetch_expansion (SqlText aid) d with
                 | Some e => e
                 | None => "(definition not found)"
                 end in
      ([Ack; StoreCall (FetchExpansion (SqlText aid));
        RespondBlocks
          [ SectionBlock
              ("Are you sure you want to delete this definition for *"
               ++ upper term0 ++ "*?" ++ newline ++ "> " ++ exp) None;
            ActionsBlock
              [ mkButton "Yes, Delete" "danger" "delete_acronym_confirm"
                  (token aid term0);
                mkButton "Cancel" "primary" "delete_acronym_cancel" term0 ] ]
          Ephemeral true],
       Returned)
  end.

(** [handle_delete_confirm].  An id that SQLite cannot hold makes the DELETE
    raise [OverflowError] when its parameter is bound: no statement runs and
    no reply is sent.  The rows of a table have ids in the range, so the
    store is written there as the delete of that id leaves it. *)
Definition handle_delete_confirm (value : string) (d : db)
  : db * list effect * completion :=
  match parse_token value with
  | None => (d, [Ack], Raised "ValueError")
  | Some (aid, term0) =>
      match py_int aid with
      | None => (d, [Ack], Raised "ValueError")
      | Some n =>
          if in_int64 n then
            (delete_acronym_by_id n d,
             [Ack; StoreCall (DeleteById n);
              Respond ("Deleted one definition for *" ++ upper term0 ++ "*.")
                      Ephemeral true],
             Returned)
          else
            (delete_acronym_by_id n d,
             [Ack; StoreCall (DeleteById n)],
             Raised "OverflowError")
      end
  end.

(** [handle_edit_cancel] and [handle_delete_cancel]. *)
Definition handle_edit_cancel : list effect :=
  [Ack; Respond "Edit cancelled." Ephemeral true].

Definition handle_delete_cancel : list effect :=
  [Ack; Respond "Delete cancelled." Ephemeral true].

(** [handle_add_view]: the submission of the add modal. *)
Definition handle_add_view (now : Z) (user_id term_value exp_value meta : string)
    (d : db) : db * list effect :=
  let term0 := strip term_value in
  let expansion0 := strip exp_value in
  let save := negb (is_empty term0) && negb (is_empty expansion0) in
  let d' := if save then add_acronym now term0 expansion0 d else d in
  let channel_id := meta in
  (d',
   List.app (Ack :: (if save then [StoreCall (AddAcronym term0 expansion0)] else []))
     (if is_empty channel_id then []
      else [PostEphemeral channel_id user_id
              ("Saved: *" ++ upper term0 ++ "* → " ++ expansion0)])).

End Bot.

Import Bot.

(** ** Names of the specification *)

(** The specification's [normalize]: trim, then uppercase. *)
Definition normalize (t : string) : string := upper (strip t).

(** A string is blank when nothing is left after trimming. *)
Definition blank (s : string) : Prop := strip s = EmptyString.

(** The invariant of the store: ids are positive, unique and not above the
    AUTOINCREMENT counter; terms are uppercase and not blank; expansions are
    not blank. *)
Definition row_ok (r : row) : Prop :=
  upper (term r) = term r /\ ~ blank (term r) /\ ~ blank (expansion r).

Definition store_inv (d : db) : Prop :=
  NoDup (ids (rows d)) /\
  Forall (fun r => 0 < id r <= seq d) (rows d) /\
  Forall row_ok (rows d).

(** An update keeps every row in its place with its id, term and time stamp,
    and keeps the expansion of the rows it does not address. *)
Definition same_but_expansion (i : Z) (r r' : row) : Prop :=
  id r' = id r /\ term r' = term r /\ created_at r' = created_at r /\
  (id r <> i -> expansion r' = expansion r).

(** The first white-space separated token of a command text, and the test
    that a token is a given subcommand whatever its case. *)
Definition first_token (text : string) : string :=
  match split_ws 2 text with
  | w :: _ => w
  | [] => EmptyString
  end.

Definition is_subcommand (name token0 : string) : bool :=
  String.eqb (lower token0) name.

(** An effect that is a call into the store. *)
Definition touches_store (e : effect) : bool :=
  match e with
  | StoreCall _ => true
  | _ => false
  end.

(** The text the router works on. *)
Definition command_text (c : command) : string := strip (or_empty (cmd_text c)).

(** The order of [ORDER BY id ASC]. *)
Definition id_le (a b : row) : Prop := id a <= id b.

(** The operations that write to the store. *)
Inductive store_op : Type :=
| OpInsert (now : Z) (term0 expansion0 : string)
| OpUpdate (acronym_id : Z) (value : string)
| OpDelete (acronym_id : Z).

Definition run_op (o : store_op) (d : db) : db :=
  match o with
  | OpInsert now t e => add_acronym now t e d
  | OpUpdate i v => update_expansion (SqlInt i) v d
  | OpDelete i => delete_acronym_by_id i d
  end.

(** The stores the program can be in: the one [init_db] creates, and what the
    writing operations make of a store it can be in. *)
Inductive reachable : db -> Prop :=
| reach_init : reachable (init_db None)
| reach_step (o : store_op) (d : db) : reachable d -> reachable (run_op o d).

(** Predicates on strings used to state the properties. *)

(** A string that is empty or starts with a character that is not white
    space. *)
Definition no_lead (s : string) : Prop :=
  match s with
  | EmptyString => True
  | String c _ => is_space c = false
  end.

(** Every character of the string passes the test. *)
Fixpoint all_chars (p : ascii -> bool) (s : string) : bool :=
  match s with
  | EmptyString => true
  | String c s' => p c && all_chars p s'
  end.

Definition is_digit (c : ascii) : bool :=
  let n := nat_of_ascii c in (48 <=? n)%nat && (n <=? 57)%nat.

(** ** The mention handler *)

Module Mention.

(** The number of characters before the first [>], when there is one. *)
Fixpoint span_to_close (s : string) : option nat :=
  match s with
  | EmptyString => None
  | String c s' =>
      if Ascii.eqb c ">" then Some O
      else option_map S (span_to_close s')
  end.

(** The length of the match of [<@[^>]+>] at the start of the string: the two
    opening characters, at least one character that is not [>], and the
    closing [>]. *)
Definition mention_length (s : string) : option nat :=
  match s with
  | String "<" (String "@" r) =>
      match span_to_close r with
      | Some (S m) => Some (S m + 3)%nat
      | _ => None
      end
  | _ => None
  end.

(** [re.sub(r"<@[^>]+>", "", s)]: from left to right, a match is left out and
    the scan goes on behind it; any other character is kept.  [skip] counts
    the characters of the current match that are still to be left out. *)
Fixpoint sub_mentions_from (skip : nat) (s : string) : string :=
  match s with
  | EmptyString => EmptyString
  | String c s' =>
      match skip with
      | S k => sub_mentions_from k s'
      | O =>
          match mention_length s with
          | Some (S len) => sub_mentions_from len s'
          | _ => String c (sub_mentions_from O s')
          end
      end
  end.

Definition sub_mentions (s : string) : string := sub_mentions_from O s.

(** [on_mention]: what the bot says in answer to the text of a mention. *)
Definition on_mention (event_text : string) (d : db) : string :=
  let term0 := strip (sub_mentions event_text) in
  if is_empty term0 then "Give me an acronym, e.g., `ATO`"
  else format_defs term0 (get_acronyms term0 d).

End Mention.

Import Mention.

(** ** The older bot of [src/acronym_bot/app.py]

    Its store functions and its add and delete handlers are those above; its
    formatter and its router name the command [/acronym], and its router has
    no edit branch. *)

Module AcronymBot.

Definition format_defs (term0 : string) (expansions : list string) : string :=
  let t := upper (strip term0) in
  match expansions with
  | [] => "Nothing for *" ++ t ++ "* yet. Try `/acronym add` to submit one."
  | _ =>
      let lines :=
        ["*" ++ t ++ "* has " ++ str_of_nat (List.length expansions)
             ++ " meaning(s):"] in
      let lines :=
        fold_left (fun (acc : list string) (p : nat * string) =>
                     List.app acc [str_of_nat (fst p) ++ ". " ++ snd p])
                  (enumerate 1 expansions) lines in
      join newline lines
  end.

Definition handle_acronym (c : command) (d : db) : list effect :=
  let text := strip (or_empty (cmd_text c)) in
  if is_empty text then
    [Ack; Respond "Usage: `/acronym ATO` or `/acronym add`" Ephemeral false]
  else if startswith (lower text) "add" then
    let parts := split_ws 2 text in
    let prefill_term :=
      match parts with
      | _ :: p :: _ => upper p
      | _ => EmptyString
      end in
    [Ack; ViewsOpen (cmd_trigger_id c)
            (add_view (or_empty (cmd_channel_id c)) prefill_term)]
  else if startswith (lower text) "delete" then
    select_flow "Usage: `/acronym delete [acronym]`" "delete" "Delete" "danger"
      "delete_acronym_select" "delete_acronym_cancel" text d
  else
    let expansions := get_acronyms text d in
    [Ack; StoreCall (GetAcronyms text);
     Respond (format_defs text expansions)
             (match expansions with [] => Ephemeral | _ => InChannel end)
             false].

End AcronymBot.

(** ** Further names used to state properties *)

(** A sequence of writing operations, the first of the list first. *)
Definition run_ops (os : list store_op) (d : db) : db :=
  fold_left (fun acc o => run_op o acc) os d.

(** The rows are stored as the program writes them: the term in normal form,
    the expansion trimmed. *)
Definition row_trimmed (r : row) : Prop :=
  normalize (term r) = term r /\ strip (expansion r) = expansion r.

(** The rows lie in strictly ascending order of id. *)
Definition id_lt (a b : row) : Prop := id a < id b.

(** The values of the buttons that sit beside the sections of a message. *)
Fixpoint button_values (bs : list block) : list string :=
  match bs with
  | [] => []
  | SectionBlock _ (Some b) :: bs' => btn_value b :: button_values bs'
  | _ :: bs' => button_values bs'
  end.

(** The initial value of the term field of a view, when it has one. *)
Definition term_prefill (v : view) : option string :=
  match blocks v with
  | InputBlock _ _ _ _ init :: _ => init
  | _ => None
  end.

(** The text users see in a reply, whatever its visibility. *)
Definition reply_texts (es : list effect) : list string :=
  flat_map (fun e => match e with
                     | Respond text _ _ => [text]
                     | _ => []
                     end) es.

(** An effect that answers the user: a reply or a dialog. *)
Definition is_reply (e : effect) : bool :=
  match e with
  | Respond _ _ _ | RespondBlocks _ _ _ | ViewsOpen _ _ => true
  | _ => false
  end.


(** The number of replies and dialogs among the effects. *)
Definition replies (es : list effect) : nat :=
  List.length (filter is_reply es).

(** * Properties *)

(** ** Strings *)

Section StringFacts.

Ltac by_cases_on_char c :=
  destruct c as [[] [] [] [] [] [] [] []]; reflexivity.

Lemma is_space_upper_char (c : ascii) : is_space (upper_char c) = is_space c.
Proof. by_cases_on_char c. Qed.

Lemma upper_char_idem (c : ascii) : upper_char (upper_char c) = upper_char c.
Proof. by_cases_on_char c. Qed.

Lemma upper_idem (s : string) : upper (upper s) = upper s.
Proof.
  induction s as [|c s IH]; simpl; [reflexivity|].
  now rewrite upper_char_idem, IH.
Qed.

Lemma is_empty_true (s : string) : is_empty s = true <-> s = EmptyString.
Proof. destruct s; simpl; split; congruence. Qed.

Lemma is_empty_false (s : string) : is_empty s = false <-> s <> EmptyString.
Proof. destruct s; simpl; split; congruence. Qed.

Lemma is_empty_upper (s : string) : is_empty (upper s) = is_empty s.
Proof. destruct s; reflexivity. Qed.

Lemma upper_empty (s : string) : upper s = EmptyString <-> s = EmptyString.
Proof. destruct s; simpl; split; congruence. Qed.

Lemma lstrip_upper (s : string) : lstrip (upper s) = upper (lstrip s).
Proof.
  induction s as [|c s IH]; simpl; [reflexivity|].
  rewrite is_space_upper_char. destruct (is_space c); [exact IH|reflexivity].
Qed.

Lemma rstrip_upper (s : string) : rstrip (upper s) = upper (rstrip s).
Proof.
  induction s as [|c s IH]; simpl; [reflexivity|].
  rewrite IH, is_space_upper_char.
  destruct (rstrip s); simpl; [destruct (is_space c)|]; reflexivity.
Qed.

Lemma strip_upper (s : string) : strip (upper s) = upper (strip s).
Proof. unfold strip. now rewrite lstrip_upper, rstrip_upper. Qed.

Lemma lstrip_no_lead (s : string) : no_lead (lstrip s).
Proof.
  induction s as [|c s IH]; simpl; [exact I|].
  destruct (is_space c) eqn:E; [exact IH|exact E].
Qed.

Lemma lstrip_id (s : string) : no_lead s -> lstrip s = s.
Proof. destruct s as [|c s]; simpl; [reflexivity|]. now intros ->. Qed.

Lemma rstrip_no_lead (s : string) : no_lead s -> no_lead (rstrip s).
Proof.
  destruct s as [|c s]; simpl; [exact (fun H => H)|].
  intros E. rewrite E. now destruct (rstrip s).
Qed.

Lemma rstrip_idem (s : string) : rstrip (rstrip s) = rstrip s.
Proof.
  induction s as [|c s IH]; simpl; [reflexivity|].
  destruct (rstrip s) as [|c' r] eqn:E.
  - destruct (is_space c) eqn:Ec; simpl; [reflexivity|now rewrite Ec].
  - change (rstrip (String c (String c' r))) with
      (match rstrip (String c' r) with
       | EmptyString => if is_space c then EmptyString else String c EmptyString
       | r0 => String c r0
       end).
    now rewrite IH.
Qed.

Lemma strip_idem (s : string) : strip (strip s) = strip s.
Proof.
  unfold strip.
  rewrite (lstrip_id (rstrip (lstrip s))).
  - apply rstrip_idem.
  - apply rstrip_no_lead, lstrip_no_lead.
Qed.

Lemma normalize_idem (t : string) : normalize (normalize t) = normalize t.
Proof.
  unfold normalize. now rewrite strip_upper, strip_idem, upper_idem.
Qed.

Lemma normalize_upper (t : string) : upper (normalize t) = normalize t.
Proof. apply upper_idem. Qed.

Lemma normalize_strip (t : string) : strip (normalize t) = normalize t.
Proof. unfold normalize. now rewrite strip_upper, strip_idem. Qed.

End StringFacts.

(** ** The store *)

Section StoreFacts.

Lemma max_id_ge (l : list row) (r : row) : In r l -> id r <= max_id l.
Proof.
  unfold max_id, ids. induction l as [|x l IH]; simpl; [contradiction|].
  intros [->|H]; [lia|]. specialize (IH H). lia.
Qed.

Lemma max_id_nonneg (l : list row) : 0 <= max_id l.
Proof.
  unfold max_id, ids. induction l as [|x l IH]; simpl; lia.
Qed.

Lemma next_id_above_rows (d : db) (r : row) : In r (rows d) -> id r < next_id d.
Proof. intros H. apply max_id_ge in H. unfold next_id. lia. Qed.

Lemma next_id_above_seq (d : db) : seq d < next_id d.
Proof. unfold next_id. lia. Qed.

Lemma next_id_positive (d : db) : 0 < next_id d.
Proof. unfold next_id. pose proof (max_id_nonneg (rows d)). lia. Qed.

Lemma next_id_fresh (d : db) : ~ In (next_id d) (ids (rows d)).
Proof.
  unfold ids. intros H. apply in_map_iff in H. destruct H as [r [E H]].
  apply next_id_above_rows in H. lia.
Qed.

Lemma insert_by_id_in (r x : row) (l : list row) :
  In x (insert_by_id r l) <-> x = r \/ In x l.
Proof.
  induction l as [|y l IH]; simpl.
  - intuition congruence.
  - destruct (id r <=? id y); simpl; rewrite ?IH; intuition congruence.
Qed.

Lemma order_by_id_in (x : row) (l : list row) :
  In x (order_by_id l) <-> In x l.
Proof.
  induction l as [|y l IH]; simpl; [tauto|].
  rewrite insert_by_id_in, IH. intuition congruence.
Qed.

Lemma insert_by_id_length (r : row) (l : list row) :
  List.length (insert_by_id r l) = S (List.length l).
Proof.
  induction l as [|y l IH]; simpl; [reflexivity|].
  destruct (id r <=? id y); simpl; now rewrite ?IH.
Qed.

Lemma order_by_id_length (l : list row) :
  List.length (order_by_id l) = List.length l.
Proof.
  induction l as [|y l IH]; simpl; [reflexivity|].
  now rewrite insert_by_id_length, IH.
Qed.

(** A row whose id is above the ids of a list is put last. *)
Lemma insert_by_id_snoc (r x : row) (l : list row) :
  id r < id x -> insert_by_id r (l ++ [x]) = (insert_by_id r l ++ [x])%list.
Proof.
  intros Hlt. induction l as [|y l IH]; simpl.
  - destruct (id r <=? id x) eqn:E; [reflexivity|]. apply Z.leb_gt in E. lia.
  - destruct (id r <=? id y); simpl; [reflexivity|]. now rewrite IH.
Qed.

Lemma order_by_id_snoc (x : row) (l : list row) :
  (forall r, In r l -> id r < id x) ->
  order_by_id (l ++ [x]) = (order_by_id l ++ [x])%list.
Proof.
  induction l as [|y l IH]; simpl; intros H; [reflexivity|].
  rewrite IH by auto. apply insert_by_id_snoc. auto.
Qed.

Lemma insert_by_id_sorted (r : row) (l : list row) :
  Sorted id_le l -> Sorted id_le (insert_by_id r l).
Proof.
  induction l as [|x l IH]; simpl; intros H.
  - repeat constructor.
  - destruct (id r <=? id x) eqn:E.
    + apply Z.leb_le in E. constructor; [exact H|]. now constructor.
    + apply Z.leb_gt in E. inversion H as [|a l' Hs Hh]; subst.
      constructor; [now apply IH|].
      destruct l as [|y l]; simpl.
      * constructor. unfold id_le. lia.
      * inversion Hh; subst.
        destruct (id r <=? id y); constructor; [unfold id_le; lia|assumption].
Qed.

(** A query lists its rows by ascending id. *)
Lemma order_by_id_sorted (l : list row) : Sorted id_le (order_by_id l).
Proof.
  induction l as [|x l IH]; simpl; [constructor|].
  now apply insert_by_id_sorted.
Qed.



Lemma where_term_app (t : string) (l1 l2 : list row) :
  where_term t (l1 ++ l2) = (where_term t l1 ++ where_term t l2)%list.
Proof. apply filter_app. Qed.

Lemma where_term_in (t : string) (r : row) (l : list row) :
  In r (where_term t l) <-> In r l /\ term r = t.
Proof.
  unfold where_term. rewrite filter_In. now rewrite String.eqb_eq.
Qed.

Lemma add_acronym_skip (now : Z) (t e : string) (d : db) :
  blank t \/ blank e -> add_acronym now t e d = d.
Proof.
  unfold blank, add_acronym. intros [H|H]; rewrite H; simpl; [reflexivity|].
  now rewrite orb_true_r.
Qed.

Lemma add_acronym_saves (now : Z) (t e : string) (d : db) :
  ~ blank t -> ~ blank e ->
  add_acronym now t e d = sql_insert (normalize t) (strip e) now d.
Proof.
  unfold blank, add_acronym, normalize. intros Ht He.
  rewrite is_empty_upper.
  apply is_empty_false in Ht, He. now rewrite Ht, He.
Qed.

(** What a query on a term returns once a row has been inserted. *)
Lemma select_after_insert (q t e : string) (now : Z) (d : db) :
  order_by_id (where_term q (rows (sql_insert t e now d))) =
  (order_by_id (where_term q (rows d)) ++
   (if String.eqb t q then [mkRow (next_id d) t e now] else []))%list.
Proof.
  unfold sql_insert; simpl. rewrite where_term_app. simpl.
  destruct (String.eqb t q).
  - apply order_by_id_snoc. intros r Hr. apply where_term_in in Hr.
    simpl. now apply next_id_above_rows.
  - now rewrite !List.app_nil_r.
Qed.

End StoreFacts.

(** ** Claims *)

(** C1. [add_acronym] (the specification's [insert]) stores the term trimmed
    and uppercased and the expansion trimmed.  When either is empty after
    trimming it returns the store as it was and raises nothing; otherwise it
    appends exactly one row, whose id is above the AUTOINCREMENT counter and
    is the id of no row of the table, so that ids stay unique. *)
Theorem add_acronym_insert (now : Z) (t e : string) (d : db) :
  (blank t \/ blank e -> add_acronym now t e d = d) /\
  (~ blank t -> ~ blank e ->
   rows (add_acronym now t e d) =
     (rows d ++ [mkRow (next_id d) (upper (strip t)) (strip e) now])%list /\
   ~ In (next_id d) (ids (rows d)) /\
   seq d < next_id d /\
   seq (add_acronym now t e d) = next_id d /\
   List.length (rows (add_acronym now t e d)) = S (List.length (rows d)) /\
   (NoDup (ids (rows d)) -> NoDup (ids (rows (add_acronym now t e d))))).
Proof.
  split; [apply add_acronym_skip|].
  intros Ht He. rewrite (add_acronym_saves now t e d Ht He).
  unfold sql_insert, normalize; simpl.
  repeat split.
  - apply next_id_fresh.
  - apply next_id_above_seq.
  - rewrite List.length_app. simpl. lia.
  - intros Hnd. unfold ids. rewrite map_app. simpl.
    apply (Permutation_NoDup (l := next_id d :: map id (rows d))).
    + apply Permutation_cons_append.
    + constructor; [apply next_id_fresh|exact Hnd].
Qed.

Lemma add_acronym_insert_witness :
  add_acronym 7 "  " "x" empty_db = empty_db /\
  rows (add_acronym 7 " ato" "Authority to Operate " empty_db) =
    [mkRow 1 "ATO" "Authority to Operate" 7].
Proof.
  split.
  - apply (add_acronym_insert 7 "  " "x" empty_db). left. reflexivity.
  - apply (add_acronym_insert 7 " ato" "Authority to Operate " empty_db);
      unfold blank; simpl; discriminate.
Defined.

Section LookupFacts.

Ltac by_cases_on_char c :=
  destruct c as [[] [] [] [] [] [] [] []]; reflexivity.








Lemma get_acronyms_in (e t : string) (d : db) :
  In e (get_acronyms t d) <->
  exists r, In r (rows d) /\ term r = normalize t /\ expansion r = e.
Proof.
  unfold get_acronyms. fold (normalize t). rewrite in_map_iff. split.
  - intros [r [E H]]. apply order_by_id_in, where_term_in in H.
    exists r. tauto.
  - intros [r [H [Ht E]]]. exists r. split; [exact E|].
    apply order_by_id_in, where_term_in. tauto.
Qed.

End LookupFacts.





(** ** Decimal rendering of ids *)

Section DecimalFacts.

Lemma string_of_uint_digits (u : Decimal.uint) :
  all_chars is_digit (NilEmpty.string_of_uint u) = true.
Proof. induction u; simpl; auto. Qed.

Lemma pos_to_uint_nonnil (p : positive) : Pos.to_uint p <> Decimal.Nil.
Proof.
  intros H. pose proof (DecimalZ.of_to (Zpos p)) as E. simpl in E.
  rewrite H in E. discriminate.
Qed.

Lemma nilzero_string_of_uint (u : Decimal.uint) :
  u <> Decimal.Nil -> NilZero.string_of_uint u = NilEmpty.string_of_uint u.
Proof. destruct u; simpl; congruence. Qed.

(** The rendering of an integer: digits, after a minus sign when it is
    negative. *)
Lemma str_of_int_cases (n : Z) :
  exists u, u <> Decimal.Nil /\
    ((0 <= n /\ n = Z.of_uint u /\
      str_of_int n = NilEmpty.string_of_uint u) \/
     (n < 0 /\ n = - Z.of_uint u /\
      str_of_int n = String "-" (NilEmpty.string_of_uint u))).
Proof.
  unfold str_of_int. destruct n as [|p|p]; simpl.
  - exists (Decimal.D0 Decimal.Nil). split; [discriminate|]. left.
    split; [lia|split; reflexivity].
  - exists (Pos.to_uint p). split; [apply pos_to_uint_nonnil|]. left.
    split; [lia|split].
    + symmetry. exact (DecimalZ.of_to (Zpos p)).
    + apply nilzero_string_of_uint, pos_to_uint_nonnil.
  - exists (Pos.to_uint p). split; [apply pos_to_uint_nonnil|]. right.
    split; [lia|split].
    + symmetry. exact (DecimalZ.of_to (Zneg p)).
    + f_equal. apply nilzero_string_of_uint, pos_to_uint_nonnil.
Qed.

End DecimalFacts.

Section TokenFacts.

Ltac char_cases c := destruct c as [[] [] [] [] [] [] [] []].

Lemma all_chars_impl (p q : ascii -> bool) (s : string) :
  (forall c, p c = true -> q c = true) ->
  all_chars p s = true -> all_chars q s = true.
Proof.
  intros Hpq. induction s as [|c s IH]; simpl; [reflexivity|].
  intros H. apply andb_prop in H. destruct H as [Hc Hs].
  now rewrite (Hpq c Hc), IH.
Qed.

Lemma all_chars_app (p : ascii -> bool) (a b : string) :
  all_chars p (a ++ b) = all_chars p a && all_chars p b.
Proof.
  induction a as [|c a IH]; simpl; [reflexivity|].
  now rewrite IH, andb_assoc.
Qed.

Lemma is_digit_not_space (c : ascii) : is_digit c = true -> is_space c = false.
Proof. char_cases c; simpl; intros H; try reflexivity; discriminate H. Qed.

Lemma is_digit_not_bar (c : ascii) :
  is_digit c = true -> negb (Ascii.eqb c "|") = true.
Proof. char_cases c; simpl; intros H; try reflexivity; discriminate H. Qed.

Lemma is_digit_not_underscore (c : ascii) :
  is_digit c = true -> Ascii.eqb c "_" = false.
Proof. char_cases c; simpl; intros H; try reflexivity; discriminate H. Qed.

(** A string without white space is its own [strip]. *)
Lemma rstrip_no_space (s : string) :
  all_chars (fun c => negb (is_space c)) s = true -> rstrip s = s.
Proof.
  induction s as [|c s IH]; simpl; [reflexivity|].
  intros H. apply andb_prop in H. destruct H as [Hc Hs].
  rewrite (IH Hs). apply negb_true_iff in Hc. rewrite Hc.
  now destruct s.
Qed.

Lemma lstrip_no_space (s : string) :
  all_chars (fun c => negb (is_space c)) s = true -> lstrip s = s.
Proof.
  destruct s as [|c s]; simpl; [reflexivity|].
  intros H. apply andb_prop in H. destruct H as [Hc _].
  apply negb_true_iff in Hc. now rewrite Hc.
Qed.

Lemma strip_no_space (s : string) :
  all_chars (fun c => negb (is_space c)) s = true -> strip s = s.
Proof.
  intros H. unfold strip. rewrite (lstrip_no_space s H).
  now apply rstrip_no_space.
Qed.

Lemma drop_underscores_digits (b : bool) (s : string) :
  s <> EmptyString -> all_chars is_digit s = true ->
  drop_underscores b s = Some s.
Proof.
  revert b. induction s as [|c s IH]; intros b Hne H; [congruence|].
  simpl in *. apply andb_prop in H. destruct H as [Hc Hs].
  rewrite (is_digit_not_underscore c Hc).
  destruct s as [|c' s']; [reflexivity|].
  rewrite IH; [reflexivity|discriminate|exact Hs].
Qed.

Lemma string_of_uint_nonempty (u : Decimal.uint) :
  u <> Decimal.Nil -> NilEmpty.string_of_uint u <> EmptyString.
Proof. destruct u; simpl; congruence. Qed.

(** The rendering of an integer holds digits and at most a minus sign: no
    white space and no delimiter. *)
Lemma str_of_int_chars (n : Z) :
  all_chars (fun c => is_digit c || Ascii.eqb c "-") (str_of_int n) = true.
Proof.
  destruct (str_of_int_cases n) as [u [_ [[_ [_ E]]|[_ [_ E]]]]]; rewrite E.
  - eapply all_chars_impl; [|apply string_of_uint_digits].
    intros c Hc. now rewrite Hc.
  - simpl. eapply all_chars_impl; [|apply string_of_uint_digits].
    intros c Hc. now rewrite Hc.
Qed.

Lemma str_of_int_no_bar (n : Z) :
  all_chars (fun c => negb (Ascii.eqb c "|")) (str_of_int n) = true.
Proof.
  eapply all_chars_impl; [|apply str_of_int_chars].
  intros c. char_cases c; simpl; intros H; try reflexivity; discriminate H.
Qed.

Lemma str_of_int_no_space (n : Z) :
  all_chars (fun c => negb (is_space c)) (str_of_int n) = true.
Proof.
  eapply all_chars_impl; [|apply str_of_int_chars].
  intros c. char_cases c; simpl; intros H; try reflexivity; discriminate H.
Qed.

Lemma int_rstrip_no_space (s : string) :
  all_chars (fun c => negb (is_int_space c)) s = true -> int_rstrip s = s.
Proof.
  induction s as [|c s IH]; simpl; [reflexivity|].
  intros H. apply andb_prop in H. destruct H as [Hc Hs].
  rewrite (IH Hs). apply negb_true_iff in Hc. rewrite Hc.
  now destruct s.
Qed.

Lemma int_lstrip_no_space (s : string) :
  all_chars (fun c => negb (is_int_space c)) s = true -> int_lstrip s = s.
Proof.
  destruct s as [|c s]; simpl; [reflexivity|].
  intros H. apply andb_prop in H. destruct H as [Hc _].
  apply negb_true_iff in Hc. now rewrite Hc.
Qed.

Lemma str_of_int_no_int_space (n : Z) :
  all_chars (fun c => negb (is_int_space c)) (str_of_int n) = true.
Proof.
  eapply all_chars_impl; [|apply str_of_int_chars].
  intros c. char_cases c; simpl; intros H; try reflexivity; discriminate H.
Qed.

(** [int(str(n)) == n]. *)
Lemma py_int_str_of_int (n : Z) : py_int (str_of_int n) = Some n.
Proof.
  unfold py_int.
  rewrite (int_lstrip_no_space _ (str_of_int_no_int_space n)).
  rewrite (int_rstrip_no_space _ (str_of_int_no_int_space n)).
  destruct (str_of_int_cases n) as [u [Hu [[_ [En E]]|[_ [En E]]]]]; rewrite E.
  - pose proof (string_of_uint_digits u) as Hd.
    pose proof (string_of_uint_nonempty u Hu) as Hne.
    destruct (NilEmpty.string_of_uint u) as [|c r] eqn:Es; [congruence|].
    assert (Hc : is_digit c = true)
      by (simpl in Hd; apply andb_prop in Hd; tauto).
    assert (Hb : (let '(negative, body) :=
                    match String c r with
                    | String "-" r0 => (true, r0)
                    | String "+" r0 => (false, r0)
                    | _ => (false, String c r)
                    end in (negative, body)) = (false, String c r)).
    { revert Hc. clear. char_cases c; simpl; intros H;
        try reflexivity; discriminate H. }
    revert Hb. clear - Hd Es En Hu.
    char_cases c; simpl in Hd; try discriminate Hd; intros _;
      cbv beta iota;
      (rewrite drop_underscores_digits;
       [rewrite <- Es, NilEmpty.usu; now rewrite En
       |discriminate
       |exact Hd]).
  - cbv beta iota.
    rewrite drop_underscores_digits;
      [|now apply string_of_uint_nonempty|apply string_of_uint_digits].
    rewrite NilEmpty.usu. now rewrite En.
Qed.

(** SQLite reads the text [str(n)] as the integer [n]. *)
Lemma integer_literal_str_of_int (n : Z) :
  integer_literal (str_of_int n) = Some n.
Proof.
  unfold integer_literal.
  destruct (str_of_int_cases n) as [u [Hu [[_ [En E]]|[_ [En E]]]]]; rewrite E.
  - change (NilEmpty.string_of_uint u)
      with (NilEmpty.string_of_int (Decimal.Pos u)).
    rewrite NilEmpty.isi. destruct u; try congruence; now rewrite En.
  - change (String "-" (NilEmpty.string_of_uint u))
      with (NilEmpty.string_of_int (Decimal.Neg u)).
    rewrite NilEmpty.isi. destruct u; try congruence; now rewrite En.
Qed.

Lemma id_matches_str_of_int (n i : Z) :
  id_matches (SqlText (str_of_int n)) i = id_matches (SqlInt n) i.
Proof. simpl. now rewrite integer_literal_str_of_int. Qed.

(** Cutting at the first delimiter gives back a prefix that has none. *)
Lemma split1_first (sep : ascii) (a b : string) :
  all_chars (fun c => negb (Ascii.eqb c sep)) a = true ->
  split1 sep (a ++ String sep b) = [a; b].
Proof.
  induction a as [|c a IH]; simpl.
  - intros _. now rewrite Ascii.eqb_refl.
  - intros H. apply andb_prop in H. destruct H as [Hc Ha].
    apply negb_true_iff in Hc. rewrite Hc. now rewrite (IH Ha).
Qed.

Lemma parse_token_token (n : Z) (t : string) :
  parse_token (token (str_of_int n) t) = Some (str_of_int n, t).
Proof.
  unfold parse_token, token.
  change ("|" ++ t) with (String "|" t).
  now rewrite (split1_first "|" _ t (str_of_int_no_bar n)).
Qed.

End TokenFacts.

(** ** Update and delete *)

Section WriteFacts.

Lemma update_expansion_skip (v : sqlval) (value : string) (d : db) :
  blank value -> update_expansion v value d = d.
Proof. unfold blank, update_expansion. now intros ->. Qed.

Lemma update_expansion_writes (v : sqlval) (value : string) (d : db) :
  ~ blank value ->
  update_expansion v value d = sql_update_expansion (strip value) v d.
Proof.
  unfold blank, update_expansion. intros H.
  apply is_empty_false in H. now rewrite H.
Qed.

Lemma update_absent (e : string) (i : Z) (l : list row) :
  ~ In i (ids l) ->
  map (fun r => if id_matches (SqlInt i) (id r) then set_expansion e r else r) l
  = l.
Proof.
  unfold ids. induction l as [|x l IH]; simpl in *; [reflexivity|].
  intros H. rewrite IH by tauto.
  destruct (id x =? i) eqn:E; [|reflexivity].
  apply Z.eqb_eq in E. tauto.
Qed.

Lemma sql_update_absent (e : string) (i : Z) (d : db) :
  ~ In i (ids (rows d)) -> sql_update_expansion e (SqlInt i) d = d.
Proof.
  intros H. unfold sql_update_expansion. rewrite (update_absent e i _ H).
  now destruct d.
Qed.

Lemma fetch_after_update (e : string) (i : Z) (d : db) :
  In i (ids (rows d)) ->
  fetch_expansion (SqlInt i) (sql_update_expansion e (SqlInt i) d) = Some e.
Proof.
  unfold fetch_expansion, sql_update_expansion, ids; simpl.
  induction (rows d) as [|x l IH]; simpl; [contradiction|].
  intros H. destruct (id x =? i) eqn:E; simpl.
  - now rewrite E.
  - rewrite E. apply IH. destruct H as [H|H]; [|exact H].
    apply Z.eqb_neq in E. contradiction.
Qed.

Lemma fetch_other_after_update (e : string) (i j : Z) (d : db) :
  j <> i ->
  fetch_expansion (SqlInt j) (sql_update_expansion e (SqlInt i) d) =
  fetch_expansion (SqlInt j) d.
Proof.
  intros Hji. unfold fetch_expansion, sql_update_expansion; simpl.
  induction (rows d) as [|x l IH]; simpl; [reflexivity|].
  destruct (id x =? i) eqn:Ei; simpl.
  - apply Z.eqb_eq in Ei.
    destruct (id x =? j) eqn:Ej; [apply Z.eqb_eq in Ej; lia|exact IH].
  - destruct (id x =? j); [reflexivity|exact IH].
Qed.

Lemma sql_update_rows (e : string) (i : Z) (d : db) :
  Forall2 (same_but_expansion i) (rows d)
          (rows (sql_update_expansion e (SqlInt i) d)).
Proof.
  unfold sql_update_expansion; simpl.
  induction (rows d) as [|x l IH]; simpl; constructor; [|exact IH].
  unfold same_but_expansion.
  destruct (id x =? i) eqn:E; simpl; repeat split; try reflexivity.
  apply Z.eqb_eq in E. intros H. contradiction.
Qed.

Lemma Forall2_same_refl (i : Z) (l : list row) :
  Forall2 (same_but_expansion i) l l.
Proof.
  induction l; constructor; [|assumption].
  unfold same_but_expansion. tauto.
Qed.

Lemma update_expansion_text_id (n : Z) (value : string) (d : db) :
  update_expansion (SqlText (str_of_int n)) value d =
  update_expansion (SqlInt n) value d.
Proof.
  unfold update_expansion, sql_update_expansion.
  destruct (is_empty (strip value)); [reflexivity|]. f_equal.
  apply map_ext. intros r. now rewrite id_matches_str_of_int.
Qed.

Lemma delete_rows_in (i : Z) (r : row) (d : db) :
  In r (rows (delete_acronym_by_id i d)) <-> In r (rows d) /\ id r <> i.
Proof.
  unfold delete_acronym_by_id, sql_delete; simpl. rewrite filter_In.
  rewrite negb_true_iff, Z.eqb_neq. tauto.
Qed.

Lemma delete_absent (i : Z) (d : db) :
  ~ In i (ids (rows d)) -> delete_acronym_by_id i d = d.
Proof.
  intros H. unfold delete_acronym_by_id, sql_delete.
  replace (filter (fun r => negb (id_matches (SqlInt i) (id r))) (rows d))
    with (rows d); [now destruct d|].
  symmetry. apply forallb_filter_id. apply forallb_forall.
  intros r Hr. simpl. apply negb_true_iff, Z.eqb_neq. intros E.
  apply H. unfold ids. apply in_map_iff. now exists r.
Qed.

Lemma delete_gone (i : Z) (d : db) :
  ~ In i (ids (rows (delete_acronym_by_id i d))).
Proof.
  unfold ids. intros H. apply in_map_iff in H. destruct H as [r [E H]].
  apply delete_rows_in in H. tauto.
Qed.

Lemma delete_twice (i : Z) (d : db) :
  delete_acronym_by_id i (delete_acronym_by_id i d) = delete_acronym_by_id i d.
Proof. apply delete_absent, delete_gone. Qed.

(** With unique ids a delete takes exactly one row away when the id is in the
    table. *)
Lemma delete_one_row (i : Z) (l : list row) :
  NoDup (ids l) -> In i (ids l) ->
  S (List.length (filter (fun r => negb (id_matches (SqlInt i) (id r))) l))
  = List.length l.
Proof.
  unfold ids. induction l as [|x l IH]; simpl; [contradiction|].
  intros Hnd Hin. inversion Hnd as [|a l' Hx Hl]; subst.
  destruct (id x =? i) eqn:E; simpl.
  - apply Z.eqb_eq in E. f_equal.
    rewrite forallb_filter_id; [reflexivity|].
    apply forallb_forall. intros r Hr. apply negb_true_iff, Z.eqb_neq.
    intros Er. apply Hx. apply in_map_iff. exists r. split; [lia|exact Hr].
  - f_equal. apply IH; [exact Hl|].
    destruct Hin as [H|H]; [|exact H]. apply Z.eqb_neq in E. contradiction.
Qed.

End WriteFacts.

(** C4, as the claim states it, fails: the expansion that is read back after
    an update is the trimmed text, not the text that was given.  Updating row
    1 with " new " stores "new". *)
Lemma update_expansion_raw_counterexample :
  ~ (forall (i : Z) (v : string) (d : db),
        ~ blank v -> In i (ids (rows d)) ->
        fetch_expansion (SqlInt i) (update_expansion (SqlInt i) v d) = Some v).
Proof.
  intros H.
  specialize (H 1 " new " (mkDb [mkRow 1 "ATO" "old" 0] 1)).
  assert (Hb : ~ blank " new ") by (unfold blank; simpl; discriminate).
  assert (Hi : In 1 (ids (rows (mkDb [mkRow 1 "ATO" "old" 0] 1))))
    by (simpl; tauto).
  specialize (H Hb Hi). simpl in H. discriminate H.
Qed.

(** C4, amended.  [update_expansion] (the store part of [handle_edit_view])
    returns the store as it was when the new expansion is blank, and also
    when no row has the id.  When the new expansion is not blank and a row
    has the id, reading the expansion of that id afterwards gives the trimmed
    new expansion.  In every case the rows keep their place, id, term and
    time stamp, a row with another id keeps its expansion, and the counter is
    not touched.  [handle_edit_view] on the token of an id runs exactly this
    update. *)
Theorem update_expansion_overwrites (i : Z) (v : string) (d : db) :
  (blank v -> update_expansion (SqlInt i) v d = d) /\
  (~ In i (ids (rows d)) -> update_expansion (SqlInt i) v d = d) /\
  (~ blank v -> In i (ids (rows d)) ->
   fetch_expansion (SqlInt i) (update_expansion (SqlInt i) v d)
   = Some (strip v)) /\
  Forall2 (same_but_expansion i)
          (rows d) (rows (update_expansion (SqlInt i) v d)) /\
  (forall j, j <> i ->
     fetch_expansion (SqlInt j) (update_expansion (SqlInt i) v d)
     = fetch_expansion (SqlInt j) d) /\
  seq (update_expansion (SqlInt i) v d) = seq d /\
  (forall user_id term0,
     fst (fst (handle_edit_view user_id (token (str_of_int i) term0) v d))
     = update_expansion (SqlInt i) v d).
Proof.
  split; [apply update_expansion_skip|].
  split.
  { intros Hi. unfold update_expansion.
    destruct (is_empty (strip v)); [reflexivity|].
    now apply sql_update_absent. }
  split.
  { intros Hv Hi. rewrite update_expansion_writes by exact Hv.
    now apply fetch_after_update. }
  split.
  { unfold update_expansion. destruct (is_empty (strip v)).
    - apply Forall2_same_refl.
    - apply sql_update_rows. }
  split.
  { intros j Hj. unfold update_expansion.
    destruct (is_empty (strip v)); [reflexivity|].
    now apply fetch_other_after_update. }
  split.
  { unfold update_expansion. now destruct (is_empty (strip v)). }
  intros user_id term0. unfold handle_edit_view.
  rewrite parse_token_token. simpl. apply update_expansion_text_id.
Qed.

Lemma update_expansion_overwrites_witness :
  fetch_expansion (SqlInt 1)
    (update_expansion (SqlInt 1) " new " (mkDb [mkRow 1 "ATO" "old" 0] 1))
  = Some "new" /\
  update_expansion (SqlInt 1) "  " (mkDb [mkRow 1 "ATO" "old" 0] 1)
  = mkDb [mkRow 1 "ATO" "old" 0] 1 /\
  update_expansion (SqlInt 2) "new" (mkDb [mkRow 1 "ATO" "old" 0] 1)
  = mkDb [mkRow 1 "ATO" "old" 0] 1.
Proof.
  split; [|split].
  - apply (proj1 (proj2 (proj2
      (update_expansion_overwrites 1 " new " (mkDb [mkRow 1 "ATO" "old" 0] 1))))).
    + unfold blank; simpl; discriminate.
    + simpl; tauto.
  - apply (proj1
      (update_expansion_overwrites 1 "  " (mkDb [mkRow 1 "ATO" "old" 0] 1))).
    reflexivity.
  - apply (proj1 (proj2
      (update_expansion_overwrites 2 "new" (mkDb [mkRow 1 "ATO" "old" 0] 1)))).
    simpl. intros [H|[]]. discriminate H.
Defined.

(** C5. [delete_acronym_by_id] removes the rows with the given id and no
    other row, and leaves the counter alone; it returns the store as it was
    when no row has the id, so deleting twice is the same as deleting once.
    Afterwards the id is in no row, hence in no result of
    [get_acronym_ids_and_expansions], while every pair listed before under
    another id is still listed. *)
Theorem delete_acronym_by_id_removes (i : Z) (d : db) :
  rows (delete_acronym_by_id i d)
    = filter (fun r => negb (id r =? i)) (rows d) /\
  seq (delete_acronym_by_id i d) = seq d /\
  (~ In i (ids (rows d)) -> delete_acronym_by_id i d = d) /\
  delete_acronym_by_id i (delete_acronym_by_id i d) = delete_acronym_by_id i d /\
  ~ In i (ids (rows (delete_acronym_by_id i d))) /\
  (forall t, ~ In i (map fst (get_acronym_ids_and_expansions t
                                 (delete_acronym_by_id i d)))) /\
  (forall r, In r (rows d) -> id r <> i ->
             In r (rows (delete_acronym_by_id i d))) /\
  (forall r, In r (rows (delete_acronym_by_id i d)) -> In r (rows d)) /\
  (forall t j e, In (j, e) (get_acronym_ids_and_expansions t d) -> j <> i ->
     In (j, e) (get_acronym_ids_and_expansions t (delete_acronym_by_id i d))).
Proof.
  split; [reflexivity|]. split; [reflexivity|].
  split; [apply delete_absent|]. split; [apply delete_twice|].
  split; [apply delete_gone|].
  split.
  { intros t H. unfold get_acronym_ids_and_expansions in H.
    rewrite map_map in H. simpl in H. apply in_map_iff in H.
    destruct H as [r [E H]]. apply order_by_id_in, where_term_in in H.
    destruct H as [H _]. apply delete_rows_in in H. tauto. }
  split; [intros r Hr Hi; apply delete_rows_in; tauto|].
  split; [intros r Hr; apply delete_rows_in in Hr; tauto|].
  intros t j e H Hj. unfold get_acronym_ids_and_expansions in *.
  apply in_map_iff in H. destruct H as [r [E H]].
  injection E as Ej Ee. apply order_by_id_in, where_term_in in H.
  apply in_map_iff. exists r. split; [now rewrite Ej, Ee|].
  apply order_by_id_in, where_term_in. split; [|tauto].
  apply delete_rows_in. split; [tauto|lia].
Qed.

Lemma delete_acronym_by_id_removes_witness :
  delete_acronym_by_id 3 (mkDb [mkRow 1 "X" "A" 0; mkRow 2 "X" "B" 0] 2)
  = mkDb [mkRow 1 "X" "A" 0; mkRow 2 "X" "B" 0] 2 /\
  In (2, "B") (get_acronym_ids_and_expansions "x"
     (delete_acronym_by_id 1 (mkDb [mkRow 1 "X" "A" 0; mkRow 2 "X" "B" 0] 2))).
Proof.
  split.
  - apply (proj1 (proj2 (proj2 (delete_acronym_by_id_removes 3 _)))).
    simpl. intros [H|[H|[]]]; discriminate H.
  - apply (proj2 (proj2 (proj2 (proj2 (proj2 (proj2 (proj2 (proj2
      (delete_acronym_by_id_removes 1
         (mkDb [mkRow 1 "X" "A" 0; mkRow 2 "X" "B" 0] 2)))))))))).
    + simpl. right. left. reflexivity.
    + discriminate.
Defined.

(** ** The invariant of the store *)

Section InvariantFacts.

Lemma store_inv_empty : store_inv empty_db.
Proof. repeat split; constructor. Qed.

Lemma row_ok_new (t e : string) (i now : Z) :
  ~ blank t -> ~ blank e -> row_ok (mkRow i (normalize t) (strip e) now).
Proof.
  unfold row_ok, blank; simpl. intros Ht He. split; [apply normalize_upper|].
  split.
  - rewrite normalize_strip. unfold normalize. now rewrite upper_empty.
  - now rewrite strip_idem.
Qed.

Lemma store_inv_insert (t e : string) (now : Z) (d : db) :
  ~ blank t -> ~ blank e -> store_inv d ->
  store_inv (sql_insert (normalize t) (strip e) now d).
Proof.
  intros Ht He [Hnd [Hb Hok]]. unfold store_inv, sql_insert; simpl.
  split; [|split].
  - unfold ids. rewrite map_app. simpl.
    apply (Permutation_NoDup (l := next_id d :: map id (rows d))).
    + apply Permutation_cons_append.
    + constructor; [apply next_id_fresh|exact Hnd].
  - apply Forall_app. split.
    + eapply Forall_impl; [|exact Hb]. simpl. intros r Hr.
      pose proof (next_id_above_seq d). lia.
    + constructor; [|constructor]. simpl.
      pose proof (next_id_positive d). lia.
  - apply Forall_app. split; [exact Hok|].
    constructor; [|constructor]. now apply row_ok_new.
Qed.

Lemma store_inv_update (e : string) (i : Z) (d : db) :
  ~ blank e -> store_inv d ->
  store_inv (sql_update_expansion (strip e) (SqlInt i) d).
Proof.
  intros He [Hnd [Hb Hok]]. unfold store_inv, sql_update_expansion; simpl.
  assert (Hids : forall l,
    ids (map (fun r => if id r =? i then set_expansion (strip e) r else r) l)
    = ids l).
  { unfold ids. intros l. rewrite map_map. apply map_ext.
    intros r. now destruct (id r =? i). }
  split; [|split].
  - now rewrite Hids.
  - apply Forall_map. eapply Forall_impl; [|exact Hb]. simpl.
    intros r Hr. now destruct (id r =? i).
  - apply Forall_map. eapply Forall_impl; [|exact Hok]. simpl.
    intros r [H1 [H2 H3]]. destruct (id r =? i); [|now repeat split].
    unfold row_ok, blank; simpl. rewrite strip_idem. now repeat split.
Qed.

Lemma NoDup_ids_filter (p : row -> bool) (l : list row) :
  NoDup (ids l) -> NoDup (ids (filter p l)).
Proof.
  unfold ids. induction l as [|x l IH]; simpl; [trivial|].
  intros H. inversion H as [|a l' Hx Hl]; subst.
  destruct (p x); simpl; [|now apply IH].
  constructor; [|now apply IH].
  intros Hin. apply Hx. apply in_map_iff in Hin.
  destruct Hin as [r [E Hr]]. apply filter_In in Hr.
  apply in_map_iff. exists r. tauto.
Qed.

Lemma Forall_filter_keep {A : Type} (P : A -> Prop) (p : A -> bool)
    (l : list A) :
  Forall P l -> Forall P (filter p l).
Proof.
  rewrite !Forall_forall. intros H x Hx. apply filter_In in Hx. apply H. tauto.
Qed.

Lemma store_inv_delete (i : Z) (d : db) :
  store_inv d -> store_inv (delete_acronym_by_id i d).
Proof.
  intros [Hnd [Hb Hok]]. unfold store_inv, delete_acronym_by_id, sql_delete.
  simpl. split; [|split].
  - now apply NoDup_ids_filter.
  - now apply Forall_filter_keep.
  - now apply Forall_filter_keep.
Qed.

Lemma store_inv_run_op (o : store_op) (d : db) :
  store_inv d -> store_inv (run_op o d).
Proof.
  intros H. destruct o as [now t e|i v|i]; simpl.
  - unfold add_acronym. rewrite is_empty_upper.
    destruct (is_empty (strip t)) eqn:Et; [exact H|].
    destruct (is_empty (strip e)) eqn:Ee; [exact H|]. simpl.
    apply is_empty_false in Et, Ee. now apply store_inv_insert.
  - unfold update_expansion.
    destruct (is_empty (strip v)) eqn:Ev; [exact H|].
    apply is_empty_false in Ev. now apply store_inv_update.
  - now apply store_inv_delete.
Qed.

(** The rows an operation leaves behind come from rows that were there, with
    the same id and term, or are the one row an insert creates. *)
Lemma run_op_origin (o : store_op) (d : db) (r' : row) :
  In r' (rows (run_op o d)) ->
  (exists r, In r (rows d) /\ id r = id r' /\ term r = term r') \/
  (exists now t e, o = OpInsert now t e /\ id r' = next_id d).
Proof.
  destruct o as [now t e|i v|i]; simpl.
  - unfold add_acronym.
    destruct (is_empty (upper (strip t)) || is_empty (strip e)).
    + intros H. left. now exists r'.
    + unfold sql_insert; simpl. intros H. apply in_app_or in H.
      destruct H as [H|[H|[]]].
      * left. now exists r'.
      * right. exists now, t, e. subst r'. now split.
  - unfold update_expansion. destruct (is_empty (strip v)).
    + intros H. left. now exists r'.
    + unfold sql_update_expansion; simpl. intros H.
      apply in_map_iff in H. destruct H as [r [E H]]. left. exists r.
      split; [exact H|]. subst r'. now destruct (id r =? i).
  - intros H. apply delete_rows_in in H. left. exists r'. tauto.
Qed.

(** A row that was there is still there with its id and term, unless the
    operation is the delete of its id. *)
Lemma run_op_keeps (o : store_op) (d : db) (r : row) :
  In r (rows d) ->
  (exists r', In r' (rows (run_op o d)) /\ id r' = id r /\ term r' = term r) \/
  o = OpDelete (id r).
Proof.
  intros Hr. destruct o as [now t e|i v|i]; simpl.
  - left. exists r. split; [|tauto]. unfold add_acronym.
    destruct (is_empty (upper (strip t)) || is_empty (strip e)); [exact Hr|].
    unfold sql_insert; simpl. apply in_or_app. now left.
  - left. unfold update_expansion. destruct (is_empty (strip v)).
    + exists r. tauto.
    + exists (if id r =? i then set_expansion (strip v) r else r).
      split.
      * unfold sql_update_expansion; simpl.
        apply (in_map (fun r0 => if id r0 =? i
                                 then set_expansion (strip v) r0 else r0)).
        exact Hr.
      * now destruct (id r =? i).
  - destruct (Z.eq_dec (id r) i) as [E|E].
    + right. now rewrite E.
    + left. exists r. split; [|tauto]. apply delete_rows_in. tauto.
Qed.

End InvariantFacts.

(** Every store the program can be in satisfies the invariant. *)
Lemma reachable_store_inv (d : db) : reachable d -> store_inv d.
Proof.
  induction 1 as [|o d Hd IH]; [apply store_inv_empty|].
  now apply store_inv_run_op.
Qed.

(** The third scenario of the specification: two insertions under the same
    term in different case, the listing with ids, and a lookup after the first
    id is deleted. *)
Example scenario_insert_list_delete :
  let d := add_acronym 11 "x" "B" (add_acronym 10 "X" "A" (init_db None)) in
  get_acronym_ids_and_expansions "X" d = [(1, "A"); (2, "B")] /\
  get_acronyms "X" (delete_acronym_by_id 1 d) = ["B"] /\
  rows (add_acronym 12 "x" "C" (delete_acronym_by_id 2 d)) =
    [mkRow 1 "X" "A" 10; mkRow 3 "X" "C" 12].
Proof. repeat split. Qed.

(** C9. Every writing operation keeps the invariant of the store: ids are
    unique, terms are uppercase and not blank after trimming, expansions are
    not blank after trimming.  No operation changes the id or the term of a
    row: a row that was there is there afterwards with the same id and term
    unless it is the row a delete addresses, and a row that is there
    afterwards was there before with that id and term or is the row an insert
    created.  An edit keeps all rows in place and replaces only the expansion
    of the row it addresses; a delete removes the rows of one id, which is
    exactly one row when the id is in the table. *)
Theorem store_inv_preserved (o : store_op) (d : db) :
  store_inv d ->
  store_inv (run_op o d) /\
  (forall r, In r (rows d) ->
     (exists r', In r' (rows (run_op o d)) /\
                 id r' = id r /\ term r' = term r) \/
     o = OpDelete (id r)) /\
  (forall r', In r' (rows (run_op o d)) ->
     (exists r, In r (rows d) /\ id r = id r' /\ term r = term r') \/
     (exists now t e, o = OpInsert now t e /\ id r' = next_id d)) /\
  match o with
  | OpInsert _ _ _ => True
  | OpUpdate i _ => Forall2 (same_but_expansion i) (rows d) (rows (run_op o d))
  | OpDelete i =>
      rows (run_op o d) = filter (fun r => negb (id r =? i)) (rows d) /\
      (In i (ids (rows d)) ->
       S (List.length (rows (run_op o d))) = List.length (rows d)) /\
      (~ In i (ids (rows d)) -> run_op o d = d)
  end.
Proof.
  intros Hinv. split; [now apply store_inv_run_op|].
  split; [intros r; apply run_op_keeps|].
  split; [intros r'; apply run_op_origin|].
  destruct o as [now t e|i v|i]; [exact I| |].
  - simpl. unfold update_expansion. destruct (is_empty (strip v)).
    + apply Forall2_same_refl.
    + apply sql_update_rows.
  - split; [reflexivity|]. split; [|apply delete_absent].
    intros Hi. destruct Hinv as [Hnd _]. now apply delete_one_row.
Qed.

Lemma store_inv_preserved_witness :
  store_inv (run_op (OpUpdate 1 " new ") (mkDb [mkRow 1 "ATO" "old" 0] 1)) /\
  store_inv (run_op (OpInsert 5 "ato" "other") (mkDb [mkRow 1 "ATO" "old" 0] 1)) /\
  store_inv (run_op (OpDelete 1) (mkDb [mkRow 1 "ATO" "old" 0] 1)).
Proof.
  assert (H : store_inv (mkDb [mkRow 1 "ATO" "old" 0] 1)).
  { unfold store_inv, row_ok, blank; simpl. split; [|split].
    - constructor; [intros []|constructor].
    - constructor; [simpl; lia|constructor].
    - constructor; [|constructor].
      split; [reflexivity|split; discriminate]. }
  split; [|split].
  - exact (proj1 (store_inv_preserved (OpUpdate 1 " new ") _ H)).
  - exact (proj1 (store_inv_preserved (OpInsert 5 "ato" "other") _ H)).
  - exact (proj1 (store_inv_preserved (OpDelete 1) _ H)).
Defined.

(** C10. The token of an id and a term, [str(id)] then the delimiter then the
    term, is cut by [split("|", 1)] into [str(id)] and the term, whatever the
    term holds, because the decimal rendering of the id has no delimiter in
    it; [int] reads the id back from its rendering, and so does SQLite when
    it compares the text with the id column.  The delete confirmation that
    receives the token therefore deletes exactly that id. *)
Theorem token_round_trip (n : Z) (t : string) :
  all_chars (fun c => negb (Ascii.eqb c "|")) (str_of_int n) = true /\
  parse_token (token (str_of_int n) t) = Some (str_of_int n, t) /\
  py_int (str_of_int n) = Some n /\
  (forall i, id_matches (SqlText (str_of_int n)) i = (i =? n)) /\
  (forall d, fst (fst (handle_delete_confirm (token (str_of_int n) t) d))
             = delete_acronym_by_id n d) /\
  parse_token (token (str_of_int 12) "A|B") = Some ("12", "A|B").
Proof.
  split; [apply str_of_int_no_bar|].
  split; [apply parse_token_token|].
  split; [apply py_int_str_of_int|].
  split; [intros i; apply id_matches_str_of_int|].
  split; [|reflexivity].
  intros d. unfold handle_delete_confirm.
  rewrite parse_token_token, py_int_str_of_int.
  now destruct (in_int64 n).
Qed.

(** ** The formatter *)

Section FormatFacts.

Lemma fold_left_snoc {A B : Type} (f : B -> A) (l : list B) (init : list A) :
  fold_left (fun (acc : list A) (p : B) => List.app acc [f p]) l init
  = List.app init (map f l).
Proof.
  revert init. induction l as [|x l IH]; intros init; simpl.
  - now rewrite List.app_nil_r.
  - rewrite IH. now rewrite <- List.app_assoc.
Qed.

Lemma enumerate_length {A : Type} (start : nat) (xs : list A) :
  List.length (enumerate start xs) = List.length xs.
Proof.
  unfold enumerate. rewrite length_combine, length_seq. apply Nat.min_id.
Qed.

Lemma numbered_nth (es : list string) :
  forall (start k : nat), (k < List.length es)%nat ->
  nth k (map (fun p : nat * string => str_of_nat (fst p) ++ ". " ++ snd p)
             (enumerate start es)) EmptyString
  = str_of_nat (start + k) ++ ". " ++ nth k es EmptyString.
Proof.
  unfold enumerate.
  induction es as [|e es IH]; intros start k Hk; simpl in *; [lia|].
  destruct k as [|k]; simpl.
  - now rewrite Nat.add_0_r.
  - rewrite IH by lia. now rewrite Nat.add_succ_r.
Qed.

End FormatFacts.

Section LayoutFacts.

(** Joining with line feeds puts a line feed in front of every line but the
    first. *)
Lemma join_newline (h : string) (lines : list string) :
  join newline (h :: lines) =
  h ++ fold_right (fun l rest => String "010" (l ++ rest)) EmptyString lines.
Proof.
  revert h. induction lines as [|l lines IH]; intros h.
  - simpl. induction h as [|c h IHh]; simpl; [reflexivity|].
    now rewrite <- IHh.
  - change (join newline (h :: l :: lines))
      with (h ++ newline ++ join newline (l :: lines)).
    rewrite IH. reflexivity.
Qed.

(** The numerals are decimal: the standard reader of decimal numbers reads
    the number back. *)
Lemma str_of_nat_decimal (n : nat) :
  option_map Z.of_int (NilZero.int_of_string (str_of_nat n))
  = Some (Z.of_nat n).
Proof.
  unfold str_of_nat, str_of_int. rewrite NilZero.isi.
  - simpl. now rewrite DecimalZ.of_to.
  - destruct (Z.of_nat n) as [|p|p]; simpl; try discriminate.
    intros H. injection H as H. exact (pos_to_uint_nonnil p H).
  - destruct (Z.of_nat n) as [|p|p]; simpl; try discriminate.
    intros H. injection H as H. exact (pos_to_uint_nonnil p H).
Qed.

End LayoutFacts.

(** C6. [format_defs] is a function of the term and the list.  On the empty
    list it returns the message that nothing is there yet and that [add]
    submits a definition, naming the trimmed uppercase term.  On a list of N
    expansions, N above zero, it returns a header that says the trimmed
    uppercase term has N meaning(s), followed by N lines, each after a line
    feed, line k (from 1) being k, a dot, a space and the k-th expansion; N
    and k are written in decimal.  Two listings are given in full, one of
    them with more than nine lines. *)
Theorem format_defs_layout (t : string) (es : list string) :
  format_defs t [] =
    "Nothing for *" ++ normalize t ++ "* yet. Try `/wtf add` to submit one." /\
  (es <> [] ->
   exists lines,
     format_defs t es =
       ("*" ++ normalize t ++ "* has " ++ str_of_nat (List.length es)
        ++ " meaning(s):")
       ++ fold_right (fun l rest => String "010" (l ++ rest))
                     EmptyString lines /\
     List.length lines = List.length es /\
     forall k, (k < List.length es)%nat ->
       nth k lines EmptyString =
         str_of_nat (S k) ++ ". " ++ nth k es EmptyString) /\
  (forall n, option_map Z.of_int (NilZero.int_of_string (str_of_nat n))
             = Some (Z.of_nat n)) /\
  format_defs t es = format_defs (normalize t) es /\
  format_defs "ZZZ" (get_acronyms "ZZZ" empty_db) =
    "Nothing for *ZZZ* yet. Try `/wtf add` to submit one." /\
  format_defs " ato" ["Authority to Operate"; "Air Tasking Order"] =
    "*ATO* has 2 meaning(s):"
    ++ String "010" "1. Authority to Operate"
    ++ String "010" "2. Air Tasking Order" /\
  format_defs "x" ["a"; "b"; "c"; "d"; "e"; "f"; "g"; "h"; "i"; "j"; "k"] =
    "*X* has 11 meaning(s):"
    ++ String "010" "1. a" ++ String "010" "2. b" ++ String "010" "3. c"
    ++ String "010" "4. d" ++ String "010" "5. e" ++ String "010" "6. f"
    ++ String "010" "7. g" ++ String "010" "8. h" ++ String "010" "9. i"
    ++ String "010" "10. j" ++ String "010" "11. k".
Proof.
  split; [reflexivity|].
  split; [|split; [apply str_of_nat_decimal|
           split; [|split; [reflexivity|split; reflexivity]]]].
  - intros Hne.
    exists (map (fun p : nat * string => str_of_nat (fst p) ++ ". " ++ snd p)
                (enumerate 1 es)).
    split; [|split].
    + destruct es as [|e es]; [congruence|].
      unfold format_defs. fold (normalize t).
      rewrite fold_left_snoc.
      change ([?h] ++ ?l)%list with (h :: l).
      apply join_newline.
    + now rewrite length_map, enumerate_length.
    + intros k Hk. now rewrite numbered_nth.
  - unfold format_defs. fold (normalize t) (normalize (normalize t)).
    now rewrite normalize_idem.
Qed.

Lemma format_defs_layout_witness :
  exists lines,
    format_defs " ato" ["Authority to Operate"; "Air Tasking Order"] =
      ("*" ++ normalize " ato" ++ "* has " ++ str_of_nat 2 ++ " meaning(s):")
      ++ fold_right (fun l rest => String "010" (l ++ rest))
                    EmptyString lines /\
    List.length lines = 2%nat /\
    forall k, (k < 2)%nat ->
      nth k lines EmptyString =
        str_of_nat (S k) ++ ". "
        ++ nth k ["Authority to Operate"; "Air Tasking Order"] EmptyString.
Proof.
  apply (proj1 (proj2 (format_defs_layout " ato"
           ["Authority to Operate"; "Air Tasking Order"]))).
  discriminate.
Defined.

(** ** The command router *)

Section RouterFacts.

Lemma lower_app (a b : string) : lower (a ++ b) = lower a ++ lower b.
Proof. induction a as [|c a IH]; simpl; [reflexivity|]. now rewrite IH. Qed.

Lemma break_word_app (s : string) :
  fst (break_word s) ++ snd (break_word s) = s.
Proof.
  induction s as [|c s IH]; simpl; [reflexivity|].
  destruct (is_space c); simpl; [reflexivity|].
  destruct (break_word s) as [w r]. simpl in *. now rewrite IH.
Qed.

Lemma prefix_app (p s : string) : String.prefix p (p ++ s) = true.
Proof.
  induction p as [|c p IH]; simpl; [now destruct s|].
  destruct (ascii_dec c c); [exact IH|congruence].
Qed.

Lemma lstrip_strip (s : string) : lstrip (strip s) = strip s.
Proof. apply lstrip_id, rstrip_no_lead, lstrip_no_lead. Qed.

(** A stripped text starts with its first token. *)
Lemma first_token_prefix (s : string) :
  exists r, strip s = first_token (strip s) ++ r.
Proof.
  unfold first_token. simpl. rewrite lstrip_strip.
  destruct (is_empty (strip s)) eqn:E.
  - apply is_empty_true in E. rewrite E. now exists EmptyString.
  - pose proof (break_word_app (strip s)) as H.
    destruct (break_word (strip s)) as [w r]. simpl in *. now exists r.
Qed.

(** When the first token is a subcommand name in any case, the lowercased
    text starts with the name. *)
Lemma subcommand_prefix (name : string) (c : command) :
  is_subcommand name (first_token (command_text c)) = true ->
  startswith (lower (command_text c)) name = true.
Proof.
  unfold is_subcommand, command_text, startswith. intros H.
  apply String.eqb_eq in H.
  destruct (first_token_prefix (or_empty (cmd_text c))) as [r E].
  rewrite E at 1. rewrite lower_app, H. apply prefix_app.
Qed.

Lemma handle_acronym_empty (c : command) (d : db) :
  command_text c = EmptyString ->
  handle_acronym c d =
    [Ack; Respond "Usage: `/wtf ATO` or `/wtf add`" Ephemeral false].
Proof.
  unfold handle_acronym, command_text. now intros ->.
Qed.

Lemma handle_acronym_add (c : command) (d : db) :
  command_text c <> EmptyString ->
  startswith (lower (command_text c)) "add" = true ->
  handle_acronym c d =
    [Ack; ViewsOpen (cmd_trigger_id c)
            (add_view (or_empty (cmd_channel_id c))
               match split_ws 2 (command_text c) with
               | _ :: p :: _ => upper p
               | _ => EmptyString
               end)].
Proof.
  unfold handle_acronym, command_text. intros Hne Hadd.
  apply is_empty_false in Hne. now rewrite Hne, Hadd.
Qed.

Lemma handle_acronym_lookup (c : command) (d : db) :
  command_text c <> EmptyString ->
  startswith (lower (command_text c)) "add" = false ->
  startswith (lower (command_text c)) "delete" = false ->
  startswith (lower (command_text c)) "edit" = false ->
  handle_acronym c d =
    [Ack; StoreCall (GetAcronyms (command_text c));
     Respond (format_defs (command_text c) (get_acronyms (command_text c) d))
       match get_acronyms (command_text c) d with
       | [] => Ephemeral
       | _ => InChannel
       end
       false].
Proof.
  unfold handle_acronym, command_text. intros Hne Ha Hd He.
  apply is_empty_false in Hne. now rewrite Hne, Ha, Hd, He.
Qed.

(** What the code does: the add dialog opens when the first token is [add] in
    any case, with the second token, uppercased, as the term. *)
Lemma handle_acronym_add_token (c : command) (d : db) :
  is_subcommand "add" (first_token (command_text c)) = true ->
  handle_acronym c d =
    [Ack; ViewsOpen (cmd_trigger_id c)
            (add_view (or_empty (cmd_channel_id c))
               match split_ws 2 (command_text c) with
               | _ :: p :: _ => upper p
               | _ => EmptyString
               end)].
Proof.
  intros H. apply handle_acronym_add.
  - intros E. rewrite E in H. discriminate H.
  - now apply subcommand_prefix.
Qed.

End RouterFacts.

(** C7 fails on the code.  The router tests whether the lowercased text
    starts with the letters [add], not whether its first token is [add]: for
    the text "ADDR", whose only token is neither [add] nor [delete] nor
    [edit], it opens the add dialog with an empty term and never looks the
    term up; for "address book" it opens the dialog on the term "BOOK"; for
    "EDITH" it answers with the usage of [edit]. *)
Theorem handle_acronym_prefix_dispatch (d : db) :
  first_token "ADDR" = "ADDR" /\
  is_subcommand "add" "ADDR" = false /\
  is_subcommand "delete" "ADDR" = false /\
  is_subcommand "edit" "ADDR" = false /\
  handle_acronym (mkCommand (Some "ADDR") "T1" (Some "C1")) d =
    [Ack; ViewsOpen "T1" (add_view "C1" EmptyString)] /\
  handle_acronym (mkCommand (Some "address book") "T1" (Some "C1")) d =
    [Ack; ViewsOpen "T1" (add_view "C1" "BOOK")] /\
  handle_acronym (mkCommand (Some "EDITH") "T1" (Some "C1")) d =
    [Ack; Respond "Usage: `/wtf edit [acronym]`" Ephemeral false].
Proof. repeat split. Qed.

(** What the code does on an empty text and on a text that passes its three
    prefix tests: the usage help, ephemeral and without a call into the
    store; and one reply to the lookup of the whole text, ephemeral exactly
    when the lookup is empty. *)
Theorem handle_acronym_visibility (c : command) (d : db) :
  (command_text c = EmptyString ->
   handle_acronym c d =
     [Ack; Respond "Usage: `/wtf ATO` or `/wtf add`" Ephemeral false] /\
   forallb (fun e => negb (touches_store e)) (handle_acronym c d) = true /\
   forall d', handle_acronym c d' = handle_acronym c d) /\
  (command_text c <> EmptyString ->
   startswith (lower (command_text c)) "add" = false ->
   startswith (lower (command_text c)) "delete" = false ->
   startswith (lower (command_text c)) "edit" = false ->
   exists rt,
     handle_acronym c d =
       [Ack; StoreCall (GetAcronyms (command_text c));
        Respond (format_defs (command_text c)
                   (get_acronyms (command_text c) d)) rt false] /\
     (rt = Ephemeral <-> get_acronyms (command_text c) d = []) /\
     (rt = InChannel <-> get_acronyms (command_text c) d <> [])).
Proof.
  split.
  - intros E. split; [|split].
    + now apply handle_acronym_empty.
    + now rewrite handle_acronym_empty.
    + intros d'. now rewrite !handle_acronym_empty.
  - intros Hne Ha Hd He.
    rewrite (handle_acronym_lookup c d Hne Ha Hd He).
    destruct (get_acronyms (command_text c) d) as [|e es].
    + exists Ephemeral. split; [reflexivity|]. split; split; congruence.
    + exists InChannel. split; [reflexivity|]. split; split; congruence.
Qed.

Lemma handle_acronym_visibility_witness :
  handle_acronym (mkCommand (Some "  ") "T1" None) empty_db =
    [Ack; Respond "Usage: `/wtf ATO` or `/wtf add`" Ephemeral false] /\
  exists rt,
    handle_acronym (mkCommand (Some "ato") "T1" None)
      (mkDb [mkRow 1 "ATO" "Authority to Operate" 7] 1) =
      [Ack; StoreCall (GetAcronyms "ato");
       Respond (format_defs "ato" ["Authority to Operate"]) rt false] /\
    (rt = Ephemeral <-> ["Authority to Operate"] = []) /\
    (rt = InChannel <-> ["Authority to Operate"] <> []).
Proof.
  split.
  - apply (proj1 (handle_acronym_visibility
                    (mkCommand (Some "  ") "T1" None) empty_db)).
    reflexivity.
  - apply (proj2 (handle_acronym_visibility
                    (mkCommand (Some "ato") "T1" None)
                    (mkDb [mkRow 1 "ATO" "Authority to Operate" 7] 1)));
      [discriminate|reflexivity|reflexivity|reflexivity].
Defined.

(** * Further properties of the store *)

Section StoreMore.


Lemma fetch_expansion_first (l : list row) (s : Z) (r : row) :
  NoDup (ids l) -> In r l ->
  fetch_expansion (SqlInt (id r)) (mkDb l s) = Some (expansion r).
Proof.
  unfold fetch_expansion, ids; simpl.
  induction l as [|x l IH]; simpl; [contradiction|].
  intros Hnd Hin. inversion Hnd as [|a l' Hx Hl]; subst.
  destruct Hin as [->|Hin].
  - now rewrite Z.eqb_refl.
  - destruct (id x =? id r) eqn:E; [|now apply IH].
    apply Z.eqb_eq in E. exfalso. apply Hx. rewrite E.
    apply in_map_iff. now exists r.
Qed.

Lemma update_map_twice (v : sqlval) (e1 e2 : string) (l : list row) :
  map (fun r => if id_matches v (id r) then set_expansion e2 r else r)
      (map (fun r => if id_matches v (id r) then set_expansion e1 r else r) l)
  = map (fun r => if id_matches v (id r) then set_expansion e2 r else r) l.
Proof.
  rewrite map_map. apply map_ext. intros r.
  destruct (id_matches v (id r)) eqn:E; simpl; now rewrite E.
Qed.

Lemma insert_by_id_map (f : row -> row) (r : row) (l : list row) :
  (forall x, id (f x) = id x) ->
  insert_by_id (f r) (map f l) = map f (insert_by_id r l).
Proof.
  intros Hf. induction l as [|x l IH]; simpl; [reflexivity|].
  rewrite !Hf. destruct (id r <=? id x); simpl; [reflexivity|].
  now rewrite IH.
Qed.

Lemma order_by_id_map (f : row -> row) (l : list row) :
  (forall x, id (f x) = id x) ->
  order_by_id (map f l) = map f (order_by_id l).
Proof.
  intros Hf. induction l as [|x l IH]; simpl; [reflexivity|].
  rewrite IH. now apply insert_by_id_map.
Qed.

Lemma where_term_map (f : row -> row) (t : string) (l : list row) :
  (forall x, term (f x) = term x) ->
  where_term t (map f l) = map f (where_term t l).
Proof.
  intros Hf. unfold where_term. induction l as [|x l IH]; simpl; [reflexivity|].
  rewrite Hf. destruct (String.eqb (term x) t); simpl; now rewrite IH.
Qed.

(** Rows in ascending order of id: a row is inserted in front of a list whose
    head is not below it. *)
Lemma insert_by_id_filter (p : row -> bool) (r : row) (l : list row) :
  StronglySorted id_le l ->
  filter p (insert_by_id r l) =
  if p r then insert_by_id r (filter p l) else filter p l.
Proof.
  induction l as [|x l IH]; intros Hs; simpl.
  - now destruct (p r).
  - inversion Hs as [|a l' Hl Hx]; subst.
    destruct (id r <=? id x) eqn:E; simpl.
    + destruct (p r) eqn:Er; [|reflexivity].
      destruct (p x) eqn:Ex; simpl.
      * now rewrite E.
      * apply Z.leb_le in E. clear IH Hs Hl.
        induction l as [|y l IHl]; simpl; [reflexivity|].
        inversion Hx as [|b l'' Hy Hr]; subst.
        destruct (p y); simpl.
        -- unfold id_le in Hy.
           destruct (id r <=? id y) eqn:Ey; [reflexivity|].
           apply Z.leb_gt in Ey. lia.
        -- now apply IHl.
    + rewrite (IH Hl). destruct (p x) eqn:Ex; simpl.
      * destruct (p r); [|reflexivity]. now rewrite E.
      * reflexivity.
Qed.

Lemma order_by_id_strongly_sorted (l : list row) :
  StronglySorted id_le (order_by_id l).
Proof.
  apply Sorted_StronglySorted.
  - intros a b c. unfold id_le. lia.
  - apply order_by_id_sorted.
Qed.

Lemma order_by_id_filter (p : row -> bool) (l : list row) :
  order_by_id (filter p l) = filter p (order_by_id l).
Proof.
  induction l as [|x l IH]; simpl; [reflexivity|].
  rewrite insert_by_id_filter by apply order_by_id_strongly_sorted.
  destruct (p x); simpl; now rewrite IH.
Qed.

Lemma where_term_filter (p : row -> bool) (t : string) (l : list row) :
  where_term t (filter p l) = filter p (where_term t l).
Proof.
  unfold where_term. induction l as [|x l IH]; simpl; [reflexivity|].
  destruct (p x) eqn:Ep, (String.eqb (term x) t) eqn:Et; simpl;
    rewrite ?Ep, ?Et, IH; reflexivity.
Qed.

End StoreMore.



(** X2. The last edit wins: an edit with a text that is not blank, made after
    any edit of the same id, leaves the store that the later edit alone
    leaves.  In particular an edit made twice is the edit made once. *)
Theorem update_expansion_last_wins (v : sqlval) (x1 x2 : string) (d : db) :
  ~ blank x2 ->
  update_expansion v x2 (update_expansion v x1 d) = update_expansion v x2 d /\
  update_expansion v x1 (update_expansion v x1 d) = update_expansion v x1 d.
Proof.
  intros H2.
  assert (Hgen : forall a b, ~ blank b ->
            update_expansion v b (update_expansion v a d)
            = update_expansion v b d).
  { intros a b Hb. rewrite !(update_expansion_writes v b) by exact Hb.
    unfold update_expansion. destruct (is_empty (strip a)); [reflexivity|].
    unfold sql_update_expansion; simpl. now rewrite update_map_twice. }
  split; [now apply Hgen|].
  destruct (is_empty (strip x1)) eqn:E.
  - apply is_empty_true in E. now rewrite !(update_expansion_skip v x1) by exact E.
  - apply is_empty_false in E. now apply Hgen.
Qed.

Lemma update_expansion_last_wins_witness :
  update_expansion (SqlInt 1) " two "
    (update_expansion (SqlInt 1) "one" (mkDb [mkRow 1 "X" "A" 0] 1))
  = update_expansion (SqlInt 1) " two " (mkDb [mkRow 1 "X" "A" 0] 1).
Proof.
  apply (update_expansion_last_wins (SqlInt 1) "one" " two ").
  unfold blank; simpl; discriminate.
Defined.

(** X3. Writes to the store commute when they address different rows: a
    delete and an edit in either order, two deletes in either order, and two
    edits of different ids in either order leave the same store. *)
Theorem writes_commute (i j : Z) (x y : string) (d : db) :
  delete_acronym_by_id i (update_expansion (SqlInt j) x d)
    = update_expansion (SqlInt j) x (delete_acronym_by_id i d) /\
  delete_acronym_by_id i (delete_acronym_by_id j d)
    = delete_acronym_by_id j (delete_acronym_by_id i d) /\
  (i <> j ->
   update_expansion (SqlInt i) x (update_expansion (SqlInt j) y d)
     = update_expansion (SqlInt j) y (update_expansion (SqlInt i) x d)).
Proof.
  split; [|split].
  - unfold update_expansion. destruct (is_empty (strip x)); [reflexivity|].
    unfold delete_acronym_by_id, sql_delete, sql_update_expansion; simpl.
    f_equal. induction (rows d) as [|r l IH]; simpl; [reflexivity|].
    destruct (id r =? j) eqn:Ej, (id r =? i) eqn:Ei; simpl;
      rewrite ?Ej, ?Ei, IH; reflexivity.
  - unfold delete_acronym_by_id, sql_delete; simpl. f_equal.
    induction (rows d) as [|r l IH]; simpl; [reflexivity|].
    destruct (id r =? j) eqn:Ej, (id r =? i) eqn:Ei; simpl;
      rewrite ?Ej, ?Ei, IH; reflexivity.
  - intros Hij. unfold update_expansion.
    destruct (is_empty (strip x)), (is_empty (strip y)); try reflexivity.
    unfold sql_update_expansion; simpl. f_equal. rewrite !map_map.
    apply map_ext. intros r.
    destruct (id r =? j) eqn:Ej, (id r =? i) eqn:Ei; simpl;
      rewrite ?Ej, ?Ei; try reflexivity.
    apply Z.eqb_eq in Ej, Ei. lia.
Qed.

Lemma writes_commute_witness :
  update_expansion (SqlInt 1) "P"
    (update_expansion (SqlInt 2) "Q"
       (mkDb [mkRow 1 "X" "A" 0; mkRow 2 "X" "B" 0] 2))
  = update_expansion (SqlInt 2) "Q"
      (update_expansion (SqlInt 1) "P"
         (mkDb [mkRow 1 "X" "A" 0; mkRow 2 "X" "B" 0] 2)).
Proof.
  apply (proj2 (proj2 (writes_commute 1 2 "P" "Q" _))). discriminate.
Defined.

(** X4. After an edit with a text that is not blank, the listing of a term is
    the listing before with the trimmed text in place of the expansion of the
    edited id: positions, ids and the other expansions are as before. *)
Theorem listing_after_update (t x : string) (i : Z) (d : db) :
  ~ blank x ->
  get_acronym_ids_and_expansions t (update_expansion (SqlInt i) x d) =
  map (fun p : Z * string => if fst p =? i then (fst p, strip x) else p)
      (get_acronym_ids_and_expansions t d).
Proof.
  intros Hx. rewrite update_expansion_writes by exact Hx.
  unfold get_acronym_ids_and_expansions, sql_update_expansion; simpl.
  rewrite where_term_map
    by (intros r; now destruct (id r =? i)).
  rewrite order_by_id_map
    by (intros r; now destruct (id r =? i)).
  rewrite !map_map. apply map_ext. intros r.
  simpl. now destruct (id r =? i).
Qed.

Lemma listing_after_update_witness :
  get_acronym_ids_and_expansions "x"
    (update_expansion (SqlInt 2) " C "
       (mkDb [mkRow 1 "X" "A" 0; mkRow 2 "X" "B" 0] 2))
  = [(1, "A"); (2, "C")].
Proof.
  apply (listing_after_update "x" " C " 2
           (mkDb [mkRow 1 "X" "A" 0; mkRow 2 "X" "B" 0] 2)).
  unfold blank; simpl; discriminate.
Defined.

(** X5. After a delete, the listing of a term is the listing before without
    the pairs of the deleted id: the definitions that stay keep their
    order. *)
Theorem listing_after_delete (t : string) (i : Z) (d : db) :
  get_acronym_ids_and_expansions t (delete_acronym_by_id i d) =
    filter (fun p : Z * string => negb (fst p =? i))
           (get_acronym_ids_and_expansions t d) /\
  get_acronyms t (delete_acronym_by_id i d) =
    map snd (filter (fun p : Z * string => negb (fst p =? i))
                    (get_acronym_ids_and_expansions t d)).
Proof.
  assert (E : order_by_id (where_term (upper (strip t))
                 (rows (delete_acronym_by_id i d)))
              = filter (fun r => negb (id r =? i))
                  (order_by_id (where_term (upper (strip t)) (rows d)))).
  { unfold delete_acronym_by_id, sql_delete; simpl.
    now rewrite where_term_filter, order_by_id_filter. }
  assert (F : forall l : list row,
            map (fun r => (id r, expansion r))
                (filter (fun r => negb (id r =? i)) l)
            = filter (fun p : Z * string => negb (fst p =? i))
                (map (fun r => (id r, expansion r)) l)).
  { induction l as [|r l IH]; simpl; [reflexivity|].
    destruct (id r =? i); simpl; now rewrite IH. }
  split.
  - unfold get_acronym_ids_and_expansions. now rewrite E, F.
  - unfold get_acronyms, get_acronym_ids_and_expansions.
    rewrite E, <- F, map_map. reflexivity.
Qed.

Lemma listing_after_delete_witness :
  get_acronyms "x"
    (delete_acronym_by_id 2
       (mkDb [mkRow 1 "X" "A" 0; mkRow 2 "X" "B" 0; mkRow 3 "X" "C" 0] 3))
  = ["A"; "C"].
Proof.
  exact (proj2 (listing_after_delete "x" 2
           (mkDb [mkRow 1 "X" "A" 0; mkRow 2 "X" "B" 0; mkRow 3 "X" "C" 0] 3))).
Defined.

Section HistoryFacts.

Lemma run_ops_snoc (os : list store_op) (o : store_op) (d : db) :
  run_ops (os ++ [o]) d = run_op o (run_ops os d).
Proof. unfold run_ops. now rewrite fold_left_app. Qed.

Lemma store_inv_run_ops (os : list store_op) (d : db) :
  store_inv d -> store_inv (run_ops os d).
Proof.
  intros H. induction os as [|o os IH] using rev_ind; [exact H|].
  rewrite run_ops_snoc. now apply store_inv_run_op.
Qed.

Lemma seq_run_op (o : store_op) (d : db) : seq d <= seq (run_op o d).
Proof.
  destruct o as [now t e|i v|i]; simpl.
  - unfold add_acronym.
    destruct (is_empty (upper (strip t)) || is_empty (strip e)); [lia|].
    simpl. pose proof (next_id_above_seq d). lia.
  - unfold update_expansion. destruct (is_empty (strip v)); simpl; lia.
  - lia.
Qed.

Lemma seq_run_ops (os : list store_op) (d : db) : seq d <= seq (run_ops os d).
Proof.
  induction os as [|o os IH] using rev_ind; [simpl; lia|].
  rewrite run_ops_snoc. pose proof (seq_run_op o (run_ops os d)). lia.
Qed.

(** Where a row that an operation leaves behind comes from: a row with the
    same id, term and time stamp, or the insert, with an id above the
    counter. *)
Lemma run_op_source (o : store_op) (d : db) (r' : row) :
  In r' (rows (run_op o d)) ->
  (exists r, In r (rows d) /\ id r = id r' /\ term r = term r' /\
             created_at r = created_at r') \/
  seq d < id r'.
Proof.
  destruct o as [now t e|i v|i]; simpl.
  - unfold add_acronym.
    destruct (is_empty (upper (strip t)) || is_empty (strip e)).
    + intros H. left. now exists r'.
    + unfold sql_insert; simpl. intros H. apply in_app_or in H.
      destruct H as [H|[H|[]]].
      * left. now exists r'.
      * right. subst r'. simpl. apply next_id_above_seq.
  - unfold update_expansion. destruct (is_empty (strip v)).
    + intros H. left. now exists r'.
    + unfold sql_update_expansion; simpl. intros H.
      apply in_map_iff in H. destruct H as [r [E H]]. left. exists r.
      split; [exact H|]. subst r'. now destruct (id r =? i).
  - intros H. apply delete_rows_in in H. left. exists r'. tauto.
Qed.

Lemma run_ops_source (os : list store_op) (d : db) (r' : row) :
  In r' (rows (run_ops os d)) -> id r' <= seq d ->
  exists r, In r (rows d) /\ id r = id r' /\ term r = term r' /\
            created_at r = created_at r'.
Proof.
  revert r'. induction os as [|o os IH] using rev_ind; intros r' Hin Hle.
  - now exists r'.
  - rewrite run_ops_snoc in Hin. apply run_op_source in Hin.
    destruct Hin as [[r [Hr [Ei [Et Ec]]]]|Hlt].
    + destruct (IH r Hr) as [r0 [H0 [E0 [T0 C0]]]]; [lia|].
      exists r0. repeat split; congruence.
    + pose proof (seq_run_ops os d). lia.
Qed.

Lemma strongly_sorted_snoc (x : row) (l : list row) :
  StronglySorted id_lt l -> (forall r, In r l -> id r < id x) ->
  StronglySorted id_lt (l ++ [x]).
Proof.
  induction 1 as [|y l Hl IH Hy]; intros Hx; simpl.
  - repeat constructor.
  - constructor.
    + apply IH. intros r Hr. apply Hx. now right.
    + apply Forall_app. split; [exact Hy|].
      constructor; [|constructor]. apply Hx. now left.
Qed.

Lemma strongly_sorted_map (f : row -> row) (l : list row) :
  (forall x, id (f x) = id x) ->
  StronglySorted id_lt l -> StronglySorted id_lt (map f l).
Proof.
  intros Hf. induction 1 as [|y l Hl IH Hy]; simpl; constructor;
    [exact IH|].
  apply Forall_map. eapply Forall_impl; [|exact Hy].
  intros a. unfold id_lt. now rewrite !Hf.
Qed.

Lemma strongly_sorted_filter (p : row -> bool) (l : list row) :
  StronglySorted id_lt l -> StronglySorted id_lt (filter p l).
Proof.
  induction 1 as [|y l Hl IH Hy]; simpl; [constructor|].
  destruct (p y); [|exact IH]. constructor; [exact IH|].
  now apply Forall_filter_keep.
Qed.

Lemma order_by_id_ascending (l : list row) :
  StronglySorted id_lt l -> order_by_id l = l.
Proof.
  induction 1 as [|y l Hl IH Hy]; simpl; [reflexivity|].
  rewrite IH. destruct l as [|z l]; simpl; [reflexivity|].
  inversion Hy as [|a b Hz _]; subst. unfold id_lt in Hz.
  destruct (id y <=? id z) eqn:E; [reflexivity|].
  apply Z.leb_gt in E. lia.
Qed.

Lemma run_op_ascending (o : store_op) (d : db) :
  StronglySorted id_lt (rows d) -> StronglySorted id_lt (rows (run_op o d)).
Proof.
  intros H. destruct o as [now t e|i v|i]; simpl.
  - unfold add_acronym.
    destruct (is_empty (upper (strip t)) || is_empty (strip e)); [exact H|].
    unfold sql_insert; simpl. apply strongly_sorted_snoc; [exact H|].
    intros r Hr. simpl. now apply next_id_above_rows.
  - unfold update_expansion. destruct (is_empty (strip v)); [exact H|].
    unfold sql_update_expansion; simpl. apply strongly_sorted_map; [|exact H].
    intros r. now destruct (id r =? i).
  - now apply strongly_sorted_filter.
Qed.

Lemma reachable_ascending (d : db) :
  reachable d -> StronglySorted id_lt (rows d).
Proof.
  induction 1 as [|o d Hd IH]; [constructor|]. now apply run_op_ascending.
Qed.

Lemma run_op_trimmed (o : store_op) (d : db) :
  Forall row_trimmed (rows d) -> Forall row_trimmed (rows (run_op o d)).
Proof.
  intros H. destruct o as [now t e|i v|i]; simpl.
  - unfold add_acronym.
    destruct (is_empty (upper (strip t)) || is_empty (strip e)); [exact H|].
    unfold sql_insert; simpl. apply Forall_app. split; [exact H|].
    constructor; [|constructor]. unfold row_trimmed; simpl.
    fold (normalize t). now rewrite normalize_idem, strip_idem.
  - unfold update_expansion. destruct (is_empty (strip v)); [exact H|].
    unfold sql_update_expansion; simpl. apply Forall_map.
    eapply Forall_impl; [|exact H]. intros r [H1 H2].
    destruct (id r =? i); [|now split].
    unfold row_trimmed; simpl. now rewrite strip_idem.
  - now apply Forall_filter_keep.
Qed.

Lemma reachable_trimmed (d : db) : reachable d -> Forall row_trimmed (rows d).
Proof.
  induction 1 as [|o d Hd IH]; [constructor|]. now apply run_op_trimmed.
Qed.

End HistoryFacts.

(** X6. Ids are never used again.  After any sequence of inserts, edits and
    deletes on a store that satisfies the invariant, a row whose id is not
    above the counter the store started with is a row the store started with:
    it has the term and the time stamp that id had.  So the id of a deleted
    row is the id of no row ever after. *)
Theorem ids_never_reused (os : list store_op) (d : db) :
  store_inv d ->
  (forall r', In r' (rows (run_ops os d)) -> id r' <= seq d ->
     exists r, In r (rows d) /\ id r = id r' /\ term r = term r' /\
               created_at r = created_at r') /\
  (forall i, In i (ids (rows d)) ->
     ~ In i (ids (rows (run_ops os (delete_acronym_by_id i d))))).
Proof.
  intros Hinv. split.
  - intros r'. apply run_ops_source.
  - intros i Hi Hin. unfold ids in Hi, Hin.
    apply in_map_iff in Hi. destruct Hi as [r [Ei Hr]].
    apply in_map_iff in Hin. destruct Hin as [r' [Ei' Hr']].
    destruct Hinv as [_ [Hb _]]. rewrite Forall_forall in Hb.
    specialize (Hb r Hr).
    destruct (run_ops_source os (delete_acronym_by_id i d) r' Hr')
      as [r0 [H0 [E0 _]]]; [simpl; lia|].
    apply (delete_gone i d). unfold ids. apply in_map_iff.
    exists r0. split; [lia|exact H0].
Qed.

Lemma ids_never_reused_witness :
  ~ In 2 (ids (rows (run_ops [OpInsert 9 "x" "C"; OpInsert 9 "y" "D"]
                       (delete_acronym_by_id 2
                          (mkDb [mkRow 1 "X" "A" 0; mkRow 2 "X" "B" 0] 2))))).
Proof.
  assert (H : store_inv (mkDb [mkRow 1 "X" "A" 0; mkRow 2 "X" "B" 0] 2)).
  { unfold store_inv, row_ok, blank; simpl. split; [|split].
    - constructor; [intros [H|[]]; discriminate H|].
      constructor; [intros []|constructor].
    - constructor; [simpl; lia|constructor; [simpl; lia|constructor]].
    - constructor; [split; [reflexivity|split; discriminate]|].
      constructor; [split; [reflexivity|split; discriminate]|constructor]. }
  apply (proj2 (ids_never_reused [OpInsert 9 "x" "C"; OpInsert 9 "y" "D"]
                  (mkDb [mkRow 1 "X" "A" 0; mkRow 2 "X" "B" 0] 2) H)).
  simpl. right. left. reflexivity.
Defined.

(** X7. In every store the program can be in, the rows lie in ascending order
    of id, so a query returns the matching rows in the order they were
    inserted: the sort of [ORDER BY id ASC] changes nothing. *)
Theorem reachable_listing_in_insertion_order (t : string) (d : db) :
  reachable d ->
  StronglySorted id_lt (rows d) /\
  get_acronyms t d = map expansion (where_term (normalize t) (rows d)) /\
  get_acronym_ids_and_expansions t d =
    map (fun r => (id r, expansion r)) (where_term (normalize t) (rows d)).
Proof.
  intros H. pose proof (reachable_ascending d H) as Hs.
  assert (E : order_by_id (where_term (normalize t) (rows d))
              = where_term (normalize t) (rows d)).
  { apply order_by_id_ascending. now apply strongly_sorted_filter. }
  split; [exact Hs|].
  unfold get_acronyms, get_acronym_ids_and_expansions. fold (normalize t).
  now rewrite E.
Qed.

Lemma reachable_listing_in_insertion_order_witness :
  get_acronyms "x"
    (run_op (OpInsert 2 "x" "B") (run_op (OpInsert 1 "X" "A") (init_db None)))
  = map expansion
      (where_term (normalize "x")
         (rows (run_op (OpInsert 2 "x" "B")
                  (run_op (OpInsert 1 "X" "A") (init_db None))))).
Proof.
  apply (reachable_listing_in_insertion_order "x").
  apply reach_step, reach_step, reach_init.
Defined.

(** X8. A lookup is empty exactly when no row is stored under the normal form
    of the term; it has as many entries as there are such rows, and it is the
    listing with ids without the ids. *)
Theorem get_acronyms_empty_iff (t : string) (d : db) :
  (get_acronyms t d = [] <->
   forall r, In r (rows d) -> term r <> normalize t) /\
  List.length (get_acronyms t d)
    = List.length (where_term (normalize t) (rows d)) /\
  get_acronyms t d = map snd (get_acronym_ids_and_expansions t d).
Proof.
  split; [|split].
  - split.
    + intros E r Hr Ht.
      assert (H : In (expansion r) (get_acronyms t d))
        by (apply get_acronyms_in; now exists r).
      rewrite E in H. exact H.
    + intros H. destruct (get_acronyms t d) as [|e es] eqn:E; [reflexivity|].
      assert (Hin : In e (get_acronyms t d)) by (rewrite E; now left).
      apply get_acronyms_in in Hin. destruct Hin as [r [Hr [Ht _]]].
      exfalso. exact (H r Hr Ht).
  - unfold get_acronyms. fold (normalize t).
    now rewrite length_map, order_by_id_length.
  - unfold get_acronyms, get_acronym_ids_and_expansions.
    now rewrite map_map.
Qed.

Lemma get_acronyms_empty_iff_witness :
  get_acronyms "zzz" (mkDb [mkRow 1 "X" "A" 0] 1) = [].
Proof.
  apply (proj1 (get_acronyms_empty_iff "zzz" (mkDb [mkRow 1 "X" "A" 0] 1))).
  intros r [<-|[]]. discriminate.
Defined.

(** X9. In every store the program can be in, each row holds its term in
    normal form and its expansion trimmed, so looking up the stored term of a
    row finds the expansion of that row. *)
Theorem stored_definition_found (d : db) (r : row) :
  reachable d -> In r (rows d) ->
  normalize (term r) = term r /\
  strip (expansion r) = expansion r /\
  In (expansion r) (get_acronyms (term r) d) /\
  In (id r, expansion r) (get_acronym_ids_and_expansions (term r) d).
Proof.
  intros Hd Hr. pose proof (reachable_trimmed d Hd) as Ht.
  rewrite Forall_forall in Ht. destruct (Ht r Hr) as [H1 H2].
  split; [exact H1|]. split; [exact H2|]. split.
  - apply get_acronyms_in. exists r. now rewrite H1.
  - unfold get_acronym_ids_and_expansions. fold (normalize (term r)).
    apply (in_map (fun r0 => (id r0, expansion r0))).
    apply order_by_id_in, where_term_in. now rewrite H1.
Qed.

Lemma stored_definition_found_witness :
  In "Authority to Operate"
     (get_acronyms "ATO"
        (run_op (OpInsert 1 " ato " " Authority to Operate ") (init_db None))).
Proof.
  apply (stored_definition_found
           (run_op (OpInsert 1 " ato " " Authority to Operate ") (init_db None))
           (mkRow 1 "ATO" "Authority to Operate" 1)).
  - apply reach_step, reach_init.
  - simpl. left. reflexivity.
Defined.

(** * Further properties of the handlers *)

Section HandlerFacts.

Lemma add_acronym_strip (now : Z) (t e : string) (d : db) :
  add_acronym now (strip t) (strip e) d = add_acronym now t e d.
Proof. unfold add_acronym. now rewrite !strip_idem. Qed.

Lemma get_acronyms_after_add (now : Z) (q t e : string) (d : db) :
  ~ blank t -> ~ blank e -> normalize q = normalize t ->
  get_acronyms q (add_acronym now t e d)
  = (get_acronyms q d ++ [strip e])%list.
Proof.
  intros Ht He Hq. rewrite add_acronym_saves by assumption.
  unfold get_acronyms. fold (normalize q).
  rewrite select_after_insert, Hq, String.eqb_refl, map_app. reflexivity.
Qed.

(** [split("|", 1)] cuts at the first delimiter, and only there. *)
Lemma split1_spec (sep : ascii) (s : string) :
  (all_chars (fun c => negb (Ascii.eqb c sep)) s = true /\ split1 sep s = [s])
  \/
  (exists a b, s = a ++ String sep b /\
               all_chars (fun c => negb (Ascii.eqb c sep)) a = true /\
               split1 sep s = [a; b]).
Proof.
  induction s as [|c s IH]; simpl.
  - left. now split.
  - destruct (Ascii.eqb c sep) eqn:E.
    + right. apply Ascii.eqb_eq in E. subst c.
      exists EmptyString, s. now repeat split.
    + destruct IH as [[Hn Hs]|[a [b [Es [Hn Hs]]]]].
      * left. rewrite Hs, Hn. now split.
      * right. exists (String c a), b. simpl. rewrite E, Hn, Hs, Es.
        now repeat split.
Qed.

Lemma all_chars_no_bar_token (a t : string) :
  all_chars (fun c => negb (Ascii.eqb c "|")) (token a t) = false.
Proof.
  unfold token. rewrite all_chars_app. simpl.
  now rewrite andb_false_r.
Qed.

Lemma parse_token_none (v : string) :
  parse_token v = None <->
  all_chars (fun c => negb (Ascii.eqb c "|")) v = true.
Proof.
  unfold parse_token.
  destruct (split1_spec "|" v) as [[Hn Hs]|[a [b [Es [Hn Hs]]]]]; rewrite Hs.
  - simpl. tauto.
  - simpl. split; [discriminate|]. intros H. subst v.
    change (a ++ String "|" b) with (token a b) in H.
    rewrite all_chars_no_bar_token in H. discriminate H.
Qed.

Lemma parse_token_some (v a t : string) :
  parse_token v = Some (a, t) <->
  v = token a t /\ all_chars (fun c => negb (Ascii.eqb c "|")) a = true.
Proof.
  split.
  - unfold parse_token.
    destruct (split1_spec "|" v) as [[Hn Hs]|[a' [b [Es [Hn Hs]]]]];
      rewrite Hs; simpl; [discriminate|].
    intros H. injection H as <- <-. now split.
  - intros [-> Hn]. unfold parse_token, token.
    change ("|" ++ t) with (String "|" t).
    now rewrite (split1_first "|" a t Hn).
Qed.

Lemma fetch_expansion_text_id (n : Z) (d : db) :
  fetch_expansion (SqlText (str_of_int n)) d = fetch_expansion (SqlInt n) d.
Proof.
  unfold fetch_expansion.
  rewrite (filter_ext (fun r => id_matches (SqlText (str_of_int n)) (id r))
                      (fun r => id_matches (SqlInt n) (id r)));
    [reflexivity|].
  intros r. apply id_matches_str_of_int.
Qed.

Lemma NoDup_ids_inj (l : list row) (x y : row) :
  NoDup (ids l) -> In x l -> In y l -> id x = id y -> x = y.
Proof.
  unfold ids. induction l as [|z l IH]; simpl; [contradiction|].
  intros Hnd Hx Hy E. inversion Hnd as [|a l' Hz Hl]; subst.
  destruct Hx as [->|Hx], Hy as [->|Hy]; [reflexivity| | |now apply IH].
  - exfalso. apply Hz. rewrite E. apply in_map_iff. now exists y.
  - exfalso. apply Hz. rewrite <- E. apply in_map_iff. now exists x.
Qed.

Lemma set_expansion_same (r : row) : set_expansion (expansion r) r = r.
Proof. now destruct r. Qed.

(** An edit that writes back the expansion a row has changes nothing. *)
Lemma update_same_expansion (d : db) (r : row) :
  NoDup (ids (rows d)) -> In r (rows d) ->
  sql_update_expansion (expansion r) (SqlInt (id r)) d = d.
Proof.
  intros Hnd Hr. unfold sql_update_expansion. destruct d as [l s]; simpl in *.
  f_equal. rewrite <- (map_id l) at 2. apply map_ext_in.
  intros x Hx. destruct (id x =? id r) eqn:E; [|reflexivity].
  apply Z.eqb_eq in E.
  rewrite (NoDup_ids_inj l x r Hnd Hx Hr E). apply set_expansion_same.
Qed.

Lemma store_inv_update_val (v : sqlval) (value : string) (d : db) :
  store_inv d -> store_inv (update_expansion v value d).
Proof.
  intros H. unfold update_expansion.
  destruct (is_empty (strip value)) eqn:Ev; [exact H|].
  destruct H as [Hnd [Hb Hok]].
  unfold store_inv, sql_update_expansion; simpl.
  assert (Hids : forall l,
    ids (map (fun r => if id_matches v (id r)
                       then set_expansion (strip value) r else r) l) = ids l).
  { unfold ids. intros l. rewrite map_map. apply map_ext.
    intros r. now destruct (id_matches v (id r)). }
  split; [|split].
  - now rewrite Hids.
  - apply Forall_map. eapply Forall_impl; [|exact Hb]. simpl.
    intros r Hr. now destruct (id_matches v (id r)).
  - apply Forall_map. eapply Forall_impl; [|exact Hok]. simpl.
    intros r [H1 [H2 H3]]. destruct (id_matches v (id r)); [|now repeat split].
    unfold row_ok, blank; simpl. rewrite strip_idem.
    apply is_empty_false in Ev. now repeat split.
Qed.

Lemma button_values_app (a b : list block) :
  button_values (a ++ b) = (button_values a ++ button_values b)%list.
Proof.
  induction a as [|x a IH]; simpl; [reflexivity|].
  destruct x as [text [btn|]| |]; simpl; now rewrite IH.
Qed.

Lemma button_values_sections (f : nat * (Z * string) -> block)
    (g : nat * (Z * string) -> string) (l : list (nat * (Z * string))) :
  (forall p, exists text b, f p = SectionBlock text (Some b) /\
                            btn_value b = g p) ->
  button_values (map f l) = map g l.
Proof.
  intros H. induction l as [|p l IH]; simpl; [reflexivity|].
  destruct (H p) as [text [b [E Eb]]]. rewrite E, IH, Eb. reflexivity.
Qed.

Lemma enumerate_snd {A : Type} (start : nat) (xs : list A) :
  map snd (enumerate start xs) = xs.
Proof.
  unfold enumerate. revert start.
  induction xs as [|x xs IH]; intros start; simpl; [reflexivity|].
  now rewrite IH.
Qed.

Lemma fold_left_snoc_ext {A B : Type} (g : list A -> B -> list A)
    (f : B -> A) (l : list B) (init : list A) :
  (forall acc p, g acc p = List.app acc [f p]) ->
  fold_left g l init = List.app init (map f l).
Proof.
  intros Hg. revert init. induction l as [|x l IH]; intros init; simpl.
  - now rewrite List.app_nil_r.
  - rewrite IH, Hg. now rewrite <- List.app_assoc.
Qed.

Lemma select_blocks_buttons (verb label style action cancel term0 : string)
    (rs : list (Z * string)) :
  button_values (select_blocks verb label style action cancel term0 rs)
  = map (fun p : Z * string => token (str_of_int (fst p)) term0) rs.
Proof.
  unfold select_blocks.
  rewrite (fold_left_snoc_ext _
    (fun p : nat * (Z * string) =>
       let '(idx, (acronym_id, expansion0)) := p in
       SectionBlock (str_of_nat idx ++ ". " ++ expansion0)
         (Some (mkButton label style action
                  (token (str_of_int acronym_id) term0)))))
    by (intros acc [idx [i e]]; reflexivity).
  rewrite !button_values_app. simpl. rewrite List.app_nil_r.
  rewrite (button_values_sections _
    (fun p : nat * (Z * string) => token (str_of_int (fst (snd p))) term0)).
  - rewrite <- (enumerate_snd 1 rs) at 2. now rewrite map_map.
  - intros [idx [i e]]. simpl. eexists. eexists. split; reflexivity.
Qed.

End HandlerFacts.

Lemma handle_add_view_fst (now : Z) (u t e meta : string) (d : db) :
  fst (handle_add_view now u t e meta d) = add_acronym now t e d.
Proof.
  unfold handle_add_view; simpl.
  destruct (is_empty (strip t)) eqn:Et; simpl.
  - apply is_empty_true in Et. symmetry. apply add_acronym_skip. now left.
  - destruct (is_empty (strip e)) eqn:Ee; simpl.
    + apply is_empty_true in Ee. symmetry. apply add_acronym_skip. now right.
    + apply add_acronym_strip.
Qed.

Lemma normalize_of_strip (t : string) : normalize (strip t) = normalize t.
Proof. unfold normalize. now rewrite strip_idem. Qed.

Lemma get_acronyms_same_normal (a b : string) (d : db) :
  normalize a = normalize b -> get_acronyms a d = get_acronyms b d.
Proof.
  intros E. unfold get_acronyms. fold (normalize a) (normalize b).
  now rewrite E.
Qed.

Lemma format_defs_same_normal (a b : string) (es : list string) :
  normalize a = normalize b -> format_defs a es = format_defs b es.
Proof.
  intros E. unfold format_defs. fold (normalize a) (normalize b).
  now rewrite E.
Qed.

(** X10. What the add dialog writes is what [add_acronym] writes on the raw
    fields: the test of [handle_add_view] on the trimmed fields and its
    trimming change nothing.  When neither field is blank, a lookup of the
    term in any variant then ends with the trimmed expansion. *)
Theorem handle_add_view_store (now : Z) (u t e meta : string) (d : db) :
  fst (handle_add_view now u t e meta d) = add_acronym now t e d /\
  (~ blank t -> ~ blank e ->
   forall q, normalize q = normalize t ->
     get_acronyms q (fst (handle_add_view now u t e meta d))
     = (get_acronyms q d ++ [strip e])%list).
Proof.
  pose proof (handle_add_view_fst now u t e meta d) as E.
  split; [exact E|].
  intros Ht He q Hq. rewrite E. now apply get_acronyms_after_add.
Qed.

Lemma handle_add_view_store_witness :
  get_acronyms "ATO"
    (fst (handle_add_view 5 "U1" " ato" "Authority to Operate " "C1" empty_db))
  = (get_acronyms "ATO" empty_db ++ [strip "Authority to Operate "])%list.
Proof.
  apply (proj2 (handle_add_view_store 5 "U1" " ato" "Authority to Operate "
                  "C1" empty_db)).
  - unfold blank; simpl; discriminate.
  - unfold blank; simpl; discriminate.
  - reflexivity.
Defined.

(** X11. When a field of the add dialog is blank, nothing is written and no
    store function is called, yet the user is sent the same "Saved" notice as
    after a save, with the trimmed fields in it. *)
Theorem handle_add_view_blank_notice (now : Z) (u t e meta : string) (d : db) :
  blank t \/ blank e -> meta <> EmptyString ->
  handle_add_view now u t e meta d =
    (d, [Ack; PostEphemeral meta u
                ("Saved: *" ++ normalize t ++ "* → " ++ strip e)]).
Proof.
  unfold blank, handle_add_view, normalize. intros Hb Hm.
  apply is_empty_false in Hm. rewrite Hm.
  destruct Hb as [H|H]; rewrite H; simpl; [reflexivity|].
  now rewrite andb_false_r.
Qed.

Lemma handle_add_view_blank_notice_witness :
  handle_add_view 5 "U1" "ato" "   " "C1" empty_db =
    (empty_db, [Ack; PostEphemeral "C1" "U1"
                       ("Saved: *" ++ normalize "ato" ++ "* → " ++ strip "   ")]).
Proof.
  apply (handle_add_view_blank_notice 5 "U1" "ato" "   " "C1" empty_db).
  - right. reflexivity.
  - discriminate.
Defined.

(** X12. Add, then ask: after the add dialog saved a term that does not start
    with the letters of a subcommand, the slash command on that term answers
    the whole channel, with the definitions known before followed by the new
    one. *)
Theorem add_then_slash_lookup (now : Z) (u t e meta : string) (c : command)
    (d : db) :
  ~ blank t -> ~ blank e ->
  command_text c = strip t ->
  startswith (lower (command_text c)) "add" = false ->
  startswith (lower (command_text c)) "delete" = false ->
  startswith (lower (command_text c)) "edit" = false ->
  handle_acronym c (fst (handle_add_view now u t e meta d)) =
    [Ack; StoreCall (GetAcronyms (strip t));
     Respond (format_defs t (get_acronyms t d ++ [strip e])%list)
             InChannel false].
Proof.
  intros Ht He Hc Ha Hd Hed.
  rewrite handle_acronym_lookup; try assumption;
    [|rewrite Hc; exact Ht].
  rewrite Hc, handle_add_view_fst.
  rewrite (get_acronyms_after_add now (strip t) t e d Ht He
             (normalize_of_strip t)).
  rewrite (get_acronyms_same_normal (strip t) t d (normalize_of_strip t)).
  rewrite (format_defs_same_normal (strip t) t _ (normalize_of_strip t)).
  destruct (get_acronyms t d ++ [strip e])%list eqn:E.
  - apply app_eq_nil in E. destruct E as [_ E]. discriminate E.
  - reflexivity.
Qed.

Lemma add_then_slash_lookup_witness :
  handle_acronym (mkCommand (Some "ato") "T1" (Some "C1"))
    (fst (handle_add_view 5 "U1" " ato" "Authority to Operate" "C1" empty_db))
  = [Ack; StoreCall (GetAcronyms (strip " ato"));
     Respond (format_defs " ato"
                (get_acronyms " ato" empty_db
                 ++ [strip "Authority to Operate"])%list)
             InChannel false].
Proof.
  apply (add_then_slash_lookup 5 "U1" " ato" "Authority to Operate" "C1"
           (mkCommand (Some "ato") "T1" (Some "C1")) empty_db);
    try reflexivity; unfold blank; simpl; discriminate.
Defined.

(** X13. Reading a token back: [parse_token] fails exactly on a value without
    delimiter, and it yields an id part and a term exactly when the value is
    the token of the two and the id part holds no delimiter. *)
Theorem parse_token_decodes (v a t : string) :
  (parse_token v = None <->
   all_chars (fun c => negb (Ascii.eqb c "|")) v = true) /\
  (parse_token v = Some (a, t) <->
   v = token a t /\ all_chars (fun c => negb (Ascii.eqb c "|")) a = true).
Proof. split; [apply parse_token_none|apply parse_token_some]. Qed.




(** X15. A stale button: confirming the delete of an id that SQLite can hold
    and that no row has (the row was deleted meanwhile) leaves the store as
    it is and answers "Deleted one definition" all the same. *)
Theorem handle_delete_confirm_stale (n : Z) (t : string) (d : db) :
  in_int64 n = true -> ~ In n (ids (rows d)) ->
  handle_delete_confirm (token (str_of_int n) t) d =
    (d, [Ack; StoreCall (DeleteById n);
         Respond ("Deleted one definition for *" ++ upper t ++ "*.")
                 Ephemeral true],
     Returned).
Proof.
  intros Hn H. unfold handle_delete_confirm.
  rewrite parse_token_token, py_int_str_of_int, Hn.
  now rewrite (delete_absent n d H).
Qed.

Lemma handle_delete_confirm_stale_witness :
  handle_delete_confirm (token (str_of_int 4) "ato")
    (mkDb [mkRow 1 "ATO" "x" 0] 4) =
    (mkDb [mkRow 1 "ATO" "x" 0] 4,
     [Ack; StoreCall (DeleteById 4);
      Respond ("Deleted one definition for *" ++ upper "ato" ++ "*.")
              Ephemeral true],
     Returned).
Proof.
  apply (handle_delete_confirm_stale 4 "ato" (mkDb [mkRow 1 "ATO" "x" 0] 4)).
  - reflexivity.
  - simpl. intros [H|[]]. discriminate H.
Defined.



Section FlowFacts.

Lemma select_blocks_length (verb label style action cancel term0 : string)
    (rs : list (Z * string)) :
  List.length (select_blocks verb label style action cancel term0 rs)
  = (List.length rs + 2)%nat.
Proof.
  unfold select_blocks.
  rewrite (fold_left_snoc_ext _
    (fun p : nat * (Z * string) =>
       let '(idx, (acronym_id, expansion0)) := p in
       SectionBlock (str_of_nat idx ++ ". " ++ expansion0)
         (Some (mkButton label style action
                  (token (str_of_int acronym_id) term0)))))
    by (intros acc [idx [i e]]; reflexivity).
  rewrite !List.length_app, length_map, enumerate_length. simpl. lia.
Qed.

Lemma select_flow_listing (usage verb label style action cancel : string)
    (text w term0 : string) (rest : list string) (d : db) :
  split_ws 2 text = w :: term0 :: rest ->
  get_acronym_ids_and_expansions term0 d <> [] ->
  select_flow usage verb label style action cancel text d =
    [Ack; StoreCall (GetIdsAndExpansions term0);
     RespondBlocks
       (select_blocks verb label style action cancel term0
          (get_acronym_ids_and_expansions term0 d))
       Ephemeral false].
Proof.
  intros Hs Hne. unfold select_flow. rewrite Hs.
  destruct (get_acronym_ids_and_expansions term0 d); [congruence|reflexivity].
Qed.

Lemma split_ws_nonempty_text (n : nat) (text w : string) (rest : list string) :
  split_ws n text = w :: rest -> is_empty text = false.
Proof. destruct text; [destruct n; discriminate|reflexivity]. Qed.

Lemma break_word_no_space (s : string) :
  all_chars (fun c => negb (is_space c)) (fst (break_word s)) = true.
Proof.
  induction s as [|c s IH]; simpl; [reflexivity|].
  destruct (is_space c) eqn:E; simpl; [reflexivity|].
  destruct (break_word s) as [w r]. simpl in *. now rewrite E, IH.
Qed.

Lemma break_word_nonempty (s : string) :
  no_lead s -> s <> EmptyString -> fst (break_word s) <> EmptyString.
Proof.
  destruct s as [|c s]; simpl; [congruence|].
  intros E _. rewrite E. destruct (break_word s). discriminate.
Qed.

(** The second token of [split(None, 2)] is a word: not empty and without
    white space. *)
Lemma split_ws_second (text w p : string) (rest : list string) :
  split_ws 2 text = w :: p :: rest ->
  p <> EmptyString /\ all_chars (fun c => negb (is_space c)) p = true.
Proof.
  simpl. destruct (is_empty (lstrip text)); [discriminate|].
  destruct (break_word (lstrip text)) as [w1 r1].
  destruct (is_empty (lstrip r1)) eqn:E1; [discriminate|].
  pose proof (break_word_no_space (lstrip r1)) as Hns.
  pose proof (break_word_nonempty (lstrip r1) (lstrip_no_lead r1)) as Hne.
  destruct (break_word (lstrip r1)) as [w2 r2]. simpl in *.
  intros H. injection H as _ <- _.
  split; [|exact Hns]. apply Hne. now apply is_empty_false.
Qed.

Lemma upper_no_space (s : string) :
  all_chars (fun c => negb (is_space c)) (upper s)
  = all_chars (fun c => negb (is_space c)) s.
Proof.
  induction s as [|c s IH]; simpl; [reflexivity|].
  now rewrite is_space_upper_char, IH.
Qed.

Lemma is_empty_token (a t : string) : is_empty (token a t) = false.
Proof. now destruct a. Qed.

End FlowFacts.

(** X17. The delete listing, end to end.  When the text starts with [delete],
    has a second token and the store lists definitions for it, the router
    answers the requester alone with a header, one section per listed
    definition and a cancel row.  The buttons carry, in the order of the
    listing, the tokens of the listed ids with the term as typed; each value
    is read back to its id and the term, and confirming it deletes exactly
    the row of that id. *)
Theorem delete_flow_buttons (c : command) (d : db) (w term0 : string)
    (rest : list string) :
  startswith (lower (command_text c)) "add" = false ->
  startswith (lower (command_text c)) "delete" = true ->
  split_ws 2 (command_text c) = w :: term0 :: rest ->
  get_acronym_ids_and_expansions term0 d <> [] ->
  exists bs,
    handle_acronym c d =
      [Ack; StoreCall (GetIdsAndExpansions term0);
       RespondBlocks bs Ephemeral false] /\
    List.length bs =
      (List.length (get_acronym_ids_and_expansions term0 d) + 2)%nat /\
    button_values bs =
      map (fun p : Z * string => token (str_of_int (fst p)) term0)
          (get_acronym_ids_and_expansions term0 d) /\
    forall v, In v (button_values bs) ->
      exists i e,
        In (i, e) (get_acronym_ids_and_expansions term0 d) /\
        parse_token v = Some (str_of_int i, term0) /\
        fst (fst (handle_delete_confirm v d)) = delete_acronym_by_id i d.
Proof.
  intros Ha Hd Hs Hne.
  exists (select_blocks "delete" "Delete" "danger" "delete_acronym_select"
            "delete_acronym_cancel" term0
            (get_acronym_ids_and_expansions term0 d)).
  split; [|split; [|split]].
  - unfold handle_acronym. fold (command_text c).
    rewrite (split_ws_nonempty_text 2 _ w _ Hs), Ha, Hd.
    now apply (select_flow_listing _ _ _ _ _ _ _ w term0 rest).
  - apply select_blocks_length.
  - apply select_blocks_buttons.
  - intros v Hv. rewrite select_blocks_buttons in Hv.
    apply in_map_iff in Hv. destruct Hv as [[i e] [Ev Hin]].
    simpl in Ev. subst v. exists i, e. split; [exact Hin|].
    split; [apply parse_token_token|].
    unfold handle_delete_confirm.
    rewrite parse_token_token, py_int_str_of_int.
    now destruct (in_int64 i).
Qed.

Lemma delete_flow_buttons_witness :
  exists bs,
    handle_acronym (mkCommand (Some "delete x") "T1" None)
      (mkDb [mkRow 1 "X" "A" 0; mkRow 2 "X" "B" 0] 2) =
      [Ack; StoreCall (GetIdsAndExpansions "x");
       RespondBlocks bs Ephemeral false] /\
    button_values bs = ["1|x"; "2|x"].
Proof.
  destruct (delete_flow_buttons (mkCommand (Some "delete x") "T1" None)
              (mkDb [mkRow 1 "X" "A" 0; mkRow 2 "X" "B" 0] 2)
              "delete" "x" [])
    as [bs [H1 [_ [H2 _]]]];
    [reflexivity|reflexivity|reflexivity|discriminate|].
  exists bs. split; [exact H1|exact H2].
Defined.

(** X18. Opening the edit dialog on a row of a store the program can be in
    pre-fills the expansion of that row, and saving the dialog without a
    change leaves the store exactly as it was. *)
Theorem edit_unchanged_round_trip (trig u t : string) (d : db) (r : row) :
  reachable d -> In r (rows d) ->
  handle_edit_select trig (token (str_of_int (id r)) t) d =
    ([Ack; StoreCall (FetchExpansion (SqlText (str_of_int (id r))));
      ViewsOpen trig
        (mkView "edit_acronym_modal" "Edit Definition" "Save" "Cancel"
           (token (str_of_int (id r)) t)
           [ SectionBlock ("*" ++ upper t ++ "*") None;
             InputBlock "exp_edit" "Edit Expansion (meaning)" "e_edit" true
               (Some (expansion r)) ])],
     Returned) /\
  fst (fst (handle_edit_view u (token (str_of_int (id r)) t) (expansion r) d))
  = d.
Proof.
  intros Hd Hr.
  pose proof (reachable_store_inv d Hd) as [Hnd [_ Hok]].
  pose proof (reachable_trimmed d Hd) as Ht.
  rewrite Forall_forall in Hok, Ht.
  destruct (Hok r Hr) as [_ [_ Hnb]]. destruct (Ht r Hr) as [_ Hs].
  split.
  - unfold handle_edit_select.
    rewrite parse_token_token, fetch_expansion_text_id.
    destruct d as [l s]. simpl in Hnd, Hr.
    now rewrite (fetch_expansion_first l s r Hnd Hr).
  - unfold handle_edit_view. rewrite parse_token_token. simpl.
    rewrite update_expansion_text_id, update_expansion_writes by exact Hnb.
    rewrite Hs. now apply update_same_expansion.
Qed.

Lemma edit_unchanged_round_trip_witness :
  fst (fst (handle_edit_view "U1" (token (str_of_int 1) "ato")
              "Authority to Operate"
              (run_op (OpInsert 3 "ato" " Authority to Operate ")
                      (init_db None))))
  = run_op (OpInsert 3 "ato" " Authority to Operate ") (init_db None).
Proof.
  apply (proj2 (edit_unchanged_round_trip "T1" "U1" "ato"
                  (run_op (OpInsert 3 "ato" " Authority to Operate ")
                          (init_db None))
                  (mkRow 1 "ATO" "Authority to Operate" 3)
                  (reach_step _ _ reach_init)
                  (or_introl eq_refl))).
Defined.

(** X19. The handlers that write keep the invariant of the store: the
    submission of the add dialog on every input, the delete confirmation on
    every value, readable or not, and the submission of the edit dialog on
    every token the program builds (the decimal id, the delimiter, a term)
    with any text. *)
Theorem handlers_keep_store_inv (now n : Z) (u a b meta v t value : string)
    (d : db) :
  store_inv d ->
  store_inv (fst (handle_add_view now u a b meta d)) /\
  store_inv (fst (fst (handle_delete_confirm v d))) /\
  store_inv (fst (fst (handle_edit_view u (token (str_of_int n) t) value d))).
Proof.
  intros H. split; [|split].
  - rewrite handle_add_view_fst.
    exact (store_inv_run_op (OpInsert now a b) d H).
  - unfold handle_delete_confirm.
    destruct (parse_token v) as [[aid t0]|]; simpl; [|exact H].
    destruct (py_int aid) as [m|]; simpl; [|exact H].
    destruct (in_int64 m); simpl; now apply store_inv_delete.
  - unfold handle_edit_view. rewrite parse_token_token. simpl.
    now apply store_inv_update_val.
Qed.

Lemma handlers_keep_store_inv_witness :
  store_inv (fst (handle_add_view 5 "U1" " x " "C" "C1"
                    (mkDb [mkRow 1 "X" "A" 0; mkRow 2 "X" "B" 0] 2))) /\
  store_inv (fst (fst (handle_delete_confirm "1|x"
                         (mkDb [mkRow 1 "X" "A" 0; mkRow 2 "X" "B" 0] 2)))) /\
  store_inv (fst (fst (handle_edit_view "U1" (token (str_of_int 2) "x") " C "
                         (mkDb [mkRow 1 "X" "A" 0; mkRow 2 "X" "B" 0] 2)))).
Proof.
  assert (H : store_inv (mkDb [mkRow 1 "X" "A" 0; mkRow 2 "X" "B" 0] 2)).
  { unfold store_inv, row_ok, blank; simpl. split; [|split].
    - constructor; [intros [H|[]]; discriminate H|].
      constructor; [intros []|constructor].
    - constructor; [simpl; lia|constructor; [simpl; lia|constructor]].
    - constructor; [split; [reflexivity|split; discriminate]|].
      constructor; [split; [reflexivity|split; discriminate]|constructor]. }
  exact (handlers_keep_store_inv 5 2 "U1" " x " "C" "C1" "1|x" "x" " C " _ H).
Defined.

(** X20. Submitting the edit dialog with a blank text writes nothing and
    calls no store function, yet both "Updated" notices go out; the first
    one is addressed to the dialog's token in the place of a channel. *)
Theorem handle_edit_view_blank (u t value : string) (n : Z) (d : db) :
  blank value ->
  handle_edit_view u (token (str_of_int n) t) value d =
    (d,
     [Ack;
      PostEphemeral (token (str_of_int n) t) u
        ("Updated: *" ++ upper t ++ "* → ");
      PostEphemeral u u ("Updated definition for *" ++ upper t ++ "*.")],
     Returned).
Proof.
  unfold blank. intros Hb. unfold handle_edit_view.
  rewrite parse_token_token, is_empty_token.
  rewrite (update_expansion_skip _ value d Hb), Hb. reflexivity.
Qed.

Lemma handle_edit_view_blank_witness :
  handle_edit_view "U1" (token (str_of_int 1) "ato") "  "
    (mkDb [mkRow 1 "ATO" "x" 0] 1) =
    (mkDb [mkRow 1 "ATO" "x" 0] 1,
     [Ack;
      PostEphemeral (token (str_of_int 1) "ato") "U1"
        ("Updated: *" ++ upper "ato" ++ "* → ");
      PostEphemeral "U1" "U1" ("Updated definition for *" ++ upper "ato" ++ "*.")],
     Returned).
Proof.
  apply (handle_edit_view_blank "U1" "ato" "  " 1). reflexivity.
Defined.

(** X21. When the add dialog opens with a term filled in, that term is the
    second word of the command in uppercase: it is not empty and holds no
    white space.  The field stays empty exactly when the command has a single
    word. *)
Theorem add_dialog_prefill (c : command) (d : db) :
  command_text c <> EmptyString ->
  startswith (lower (command_text c)) "add" = true ->
  exists v,
    handle_acronym c d = [Ack; ViewsOpen (cmd_trigger_id c) v] /\
    private_metadata v = or_empty (cmd_channel_id c) /\
    match term_prefill v with
    | None => exists w, split_ws 2 (command_text c) = [w]
    | Some p =>
        p <> EmptyString /\ upper p = p /\
        all_chars (fun ch => negb (is_space ch)) p = true /\
        exists w w2 rest,
          split_ws 2 (command_text c) = w :: w2 :: rest /\ p = upper w2
    end.
Proof.
  intros Hne Hadd. pose proof (handle_acronym_add c d Hne Hadd) as H.
  destruct (split_ws 2 (command_text c)) as [|w [|w2 rest]] eqn:Es.
  - exfalso. unfold command_text in *. simpl in Es.
    rewrite lstrip_strip in Es. apply is_empty_false in Hne.
    rewrite Hne in Es. destruct (break_word _); discriminate Es.
  - eexists. split; [exact H|]. split; [reflexivity|].
    cbn. now exists w.
  - destruct (split_ws_second _ _ _ _ Es) as [Hp Hns].
    eexists. split; [exact H|]. split; [reflexivity|].
    unfold term_prefill, add_view; cbn [blocks].
    destruct (is_empty (upper w2)) eqn:E.
    + apply is_empty_true in E. apply (proj1 (upper_empty w2)) in E.
      congruence.
    + split; [now apply is_empty_false|]. split; [apply upper_idem|].
      split; [now rewrite upper_no_space|]. now exists w, w2, rest.
Qed.

Lemma add_dialog_prefill_witness :
  exists v,
    handle_acronym (mkCommand (Some "add  ato now") "T1" (Some "C1")) empty_db
      = [Ack; ViewsOpen "T1" v] /\
    term_prefill v = Some "ATO".
Proof.
  destruct (add_dialog_prefill
              (mkCommand (Some "add  ato now") "T1" (Some "C1")) empty_db)
    as [v [H1 [_ H2]]]; [discriminate|reflexivity|].
  exists v. split; [exact H1|].
  simpl in H1. injection H1 as <-. reflexivity.
Defined.

(** * The mention handler and the older bot *)

Section MentionFacts.

Lemma string_length_app (a b : string) :
  String.length (a ++ b) = (String.length a + String.length b)%nat.
Proof. induction a as [|c a IH]; simpl; [reflexivity|]. now rewrite IH. Qed.

Lemma string_app_assoc (a b c : string) : (a ++ b) ++ c = a ++ b ++ c.
Proof. induction a as [|x a IH]; simpl; [reflexivity|]. now rewrite IH. Qed.

Lemma span_to_close_app (w t : string) :
  all_chars (fun c => negb (Ascii.eqb c ">")) w = true ->
  span_to_close (w ++ String ">" t) = Some (String.length w).
Proof.
  induction w as [|c w IH]; simpl; [reflexivity|].
  intros H. apply andb_prop in H. destruct H as [Hc Hw].
  apply negb_true_iff in Hc. rewrite Hc, (IH Hw). reflexivity.
Qed.

Lemma sub_mentions_from_skip (a rest : string) :
  sub_mentions_from (String.length a) (a ++ rest) = sub_mentions_from O rest.
Proof. induction a as [|c a IH]; simpl; [reflexivity|exact IH]. Qed.

Lemma mention_length_other (c : ascii) (s : string) :
  Ascii.eqb c "<" = false -> mention_length (String c s) = None.
Proof.
  destruct c as [[] [] [] [] [] [] [] []]; simpl; intros H;
    try reflexivity; discriminate H.
Qed.

(** A text without [<] holds no mention and is left as it is. *)
Lemma sub_mentions_plain (t : string) :
  all_chars (fun c => negb (Ascii.eqb c "<")) t = true -> sub_mentions t = t.
Proof.
  unfold sub_mentions. induction t as [|c t IH]; [reflexivity|].
  intros H. simpl in H. apply andb_prop in H. destruct H as [Hc Ht].
  apply negb_true_iff in Hc.
  change (sub_mentions_from 0 (String c t)) with
    (match mention_length (String c t) with
     | Some (S len) => sub_mentions_from len t
     | _ => String c (sub_mentions_from O t)
     end).
  now rewrite (mention_length_other c t Hc), (IH Ht).
Qed.

(** A mention at the start of the text is left out. *)
Lemma sub_mentions_leading (w rest : string) :
  w <> EmptyString ->
  all_chars (fun c => negb (Ascii.eqb c ">")) w = true ->
  sub_mentions ("<@" ++ w ++ ">" ++ rest) = sub_mentions rest.
Proof.
  intros Hne Hw. unfold sub_mentions.
  change ("<@" ++ w ++ ">" ++ rest)
    with (String "<" (String "@" (w ++ String ">" rest))).
  change (sub_mentions_from 0 (String "<" (String "@" (w ++ String ">" rest))))
    with (match mention_length
                  (String "<" (String "@" (w ++ String ">" rest))) with
          | Some (S len) =>
              sub_mentions_from len (String "@" (w ++ String ">" rest))
          | _ => String "<"
                   (sub_mentions_from O (String "@" (w ++ String ">" rest)))
          end).
  unfold mention_length. rewrite (span_to_close_app w rest Hw).
  destruct w as [|c w]; [congruence|].
  cbn [String.length]. replace (S (String.length w) + 3)%nat
    with (S (String.length ("@" ++ String c w ++ ">")))
    by (simpl; rewrite !string_length_app; simpl; lia).
  replace (String "@" (String c w ++ String ">" rest))
    with (("@" ++ String c w ++ ">") ++ rest)
    by (simpl; f_equal; f_equal; now rewrite string_app_assoc).
  apply sub_mentions_from_skip.
Qed.

End MentionFacts.

(** X22. A mention of the bot followed by a text without [<]: the mention is
    dropped; when only white space is left the bot asks for an acronym and
    does not read the store, otherwise it answers with the formatted lookup
    of the text.  A mention never opens a dialog, whatever the text. *)
Theorem on_mention_lookup (w t : string) (d : db) :
  w <> EmptyString ->
  all_chars (fun c => negb (Ascii.eqb c ">")) w = true ->
  all_chars (fun c => negb (Ascii.eqb c "<")) t = true ->
  on_mention ("<@" ++ w ++ ">" ++ t) d =
    (if is_empty (strip t) then "Give me an acronym, e.g., `ATO`"
     else format_defs t (get_acronyms t d)) /\
  (blank t -> forall d', on_mention ("<@" ++ w ++ ">" ++ t) d'
                         = on_mention ("<@" ++ w ++ ">" ++ t) d).
Proof.
  intros Hne Hw Ht.
  assert (E : forall d0, on_mention ("<@" ++ w ++ ">" ++ t) d0 =
            (if is_empty (strip t) then "Give me an acronym, e.g., `ATO`"
             else format_defs t (get_acronyms t d0))).
  { intros d0. unfold on_mention.
    rewrite (sub_mentions_leading w t Hne Hw), (sub_mentions_plain t Ht).
    destruct (is_empty (strip t)); [reflexivity|].
    rewrite (get_acronyms_same_normal (strip t) t d0 (normalize_of_strip t)).
    apply format_defs_same_normal, normalize_of_strip. }
  split; [apply E|].
  unfold blank. intros Hb d'. rewrite !E, Hb. reflexivity.
Qed.

Lemma on_mention_lookup_witness :
  on_mention ("<@" ++ "U123" ++ ">" ++ " ato")
             (mkDb [mkRow 1 "ATO" "Authority to Operate" 0] 1) =
    (if is_empty (strip " ato") then "Give me an acronym, e.g., `ATO`"
     else format_defs " ato"
            (get_acronyms " ato"
               (mkDb [mkRow 1 "ATO" "Authority to Operate" 0] 1))).
Proof.
  assert (H1 : "U123" <> EmptyString) by discriminate.
  exact (proj1 (on_mention_lookup "U123" " ato"
                  (mkDb [mkRow 1 "ATO" "Authority to Operate" 0] 1)
                  H1 eq_refl eq_refl)).
Defined.

(** X23. For a term that the router looks up, the slash command and the
    mention give the same text; only the slash command picks who sees it. *)
Theorem mention_matches_slash (w t : string) (c : command) (d : db) :
  w <> EmptyString ->
  all_chars (fun ch => negb (Ascii.eqb ch ">")) w = true ->
  all_chars (fun ch => negb (Ascii.eqb ch "<")) t = true ->
  ~ blank t ->
  command_text c = strip t ->
  startswith (lower (command_text c)) "add" = false ->
  startswith (lower (command_text c)) "delete" = false ->
  startswith (lower (command_text c)) "edit" = false ->
  reply_texts (handle_acronym c d) = [on_mention ("<@" ++ w ++ ">" ++ t) d].
Proof.
  intros Hne Hw Ht Hb Hc Ha Hd He.
  rewrite handle_acronym_lookup; try assumption; [|rewrite Hc; exact Hb].
  unfold on_mention.
  rewrite (sub_mentions_leading w t Hne Hw), (sub_mentions_plain t Ht).
  apply is_empty_false in Hb. rewrite Hb, Hc. reflexivity.
Qed.

Lemma mention_matches_slash_witness :
  reply_texts (handle_acronym (mkCommand (Some "ato") "T1" None) empty_db)
  = [on_mention ("<@" ++ "U123" ++ ">" ++ " ato ") empty_db].
Proof.
  assert (H1 : "U123" <> EmptyString) by discriminate.
  assert (H2 : ~ blank " ato ") by (unfold blank; simpl; discriminate).
  exact (mention_matches_slash "U123" " ato "
           (mkCommand (Some "ato") "T1" None) empty_db
           H1 eq_refl eq_refl H2 eq_refl eq_refl eq_refl eq_refl).
Defined.

Section OlderBotFacts.

Lemma older_format_defs_same (t : string) (es : list string) :
  es <> [] -> AcronymBot.format_defs t es = format_defs t es.
Proof. destruct es; [congruence|reflexivity]. Qed.

End OlderBotFacts.

(** X24. The older [/acronym] router and the [/wtf] router do the same on
    every text that opens the add dialog, on every [delete] text with a
    second word, and on every looked-up text that has a definition: the
    rename changed the help and "nothing yet" texts only.  They differ on a
    text that starts with [edit]: the older router has no edit flow and looks
    the whole text up as a term. *)
Theorem older_router_agrees (c : command) (d : db) :
  command_text c <> EmptyString ->
  (startswith (lower (command_text c)) "add" = true ->
   AcronymBot.handle_acronym c d = handle_acronym c d) /\
  (startswith (lower (command_text c)) "add" = false ->
   startswith (lower (command_text c)) "delete" = true ->
   (2 <= List.length (split_ws 2 (command_text c)))%nat ->
   AcronymBot.handle_acronym c d = handle_acronym c d) /\
  (startswith (lower (command_text c)) "add" = false ->
   startswith (lower (command_text c)) "delete" = false ->
   startswith (lower (command_text c)) "edit" = false ->
   get_acronyms (command_text c) d <> [] ->
   AcronymBot.handle_acronym c d = handle_acronym c d) /\
  (startswith (lower (command_text c)) "add" = false ->
   startswith (lower (command_text c)) "delete" = false ->
   startswith (lower (command_text c)) "edit" = true ->
   AcronymBot.handle_acronym c d =
     [Ack; StoreCall (GetAcronyms (command_text c));
      Respond (AcronymBot.format_defs (command_text c)
                 (get_acronyms (command_text c) d))
              (match get_acronyms (command_text c) d with
               | [] => Ephemeral
               | _ => InChannel
               end)
              false]).
Proof.
  intros Hne. apply is_empty_false in Hne.
  unfold AcronymBot.handle_acronym, handle_acronym.
  fold (command_text c). rewrite Hne.
  split; [|split; [|split]].
  - now intros ->.
  - intros -> -> Hlen. unfold select_flow.
    destruct (split_ws 2 (command_text c)) as [|w [|term0 rest]];
      simpl in Hlen; try lia. reflexivity.
  - intros -> -> -> Hex.
    now rewrite older_format_defs_same.
  - now intros -> -> _.
Qed.

Lemma older_router_agrees_witness :
  AcronymBot.handle_acronym (mkCommand (Some "delete x") "T1" None)
    (mkDb [mkRow 1 "X" "A" 0] 1)
  = handle_acronym (mkCommand (Some "delete x") "T1" None)
      (mkDb [mkRow 1 "X" "A" 0] 1).
Proof.
  apply (proj1 (proj2 (older_router_agrees
                  (mkCommand (Some "delete x") "T1" None)
                  (mkDb [mkRow 1 "X" "A" 0] 1)
                  ltac:(discriminate))));
    [reflexivity|reflexivity|simpl; lia].
Defined.

(** X25. The edit listing, end to end.  When the text starts with [edit], has
    a second token and the store lists definitions for it, the buttons carry
    the tokens of the listed ids in the order of the listing.  Pressing one
    opens the edit dialog with that token as its private metadata, and the
    submission of the dialog edits exactly the row of that id. *)
Theorem edit_flow_buttons (c : command) (d : db) (w term0 trig u value : string)
    (rest : list string) :
  startswith (lower (command_text c)) "add" = false ->
  startswith (lower (command_text c)) "delete" = false ->
  startswith (lower (command_text c)) "edit" = true ->
  split_ws 2 (command_text c) = w :: term0 :: rest ->
  get_acronym_ids_and_expansions term0 d <> [] ->
  exists bs,
    handle_acronym c d =
      [Ack; StoreCall (GetIdsAndExpansions term0);
       RespondBlocks bs Ephemeral false] /\
    button_values bs =
      map (fun p : Z * string => token (str_of_int (fst p)) term0)
          (get_acronym_ids_and_expansions term0 d) /\
    forall v, In v (button_values bs) ->
      exists i e,
        In (i, e) (get_acronym_ids_and_expansions term0 d) /\
        (exists vw,
           fst (handle_edit_select trig v d) =
             [Ack; StoreCall (FetchExpansion (SqlText (str_of_int i)));
              ViewsOpen trig vw] /\
           private_metadata vw = v) /\
        fst (fst (handle_edit_view u v value d))
          = update_expansion (SqlInt i) value d.
Proof.
  intros Ha Hd He Hs Hne.
  exists (select_blocks "edit" "Edit" "primary" "edit_acronym_select"
            "edit_acronym_cancel" term0
            (get_acronym_ids_and_expansions term0 d)).
  split; [|split].
  - unfold handle_acronym. fold (command_text c).
    rewrite (split_ws_nonempty_text 2 _ w _ Hs), Ha, Hd, He.
    now apply (select_flow_listing _ _ _ _ _ _ _ w term0 rest).
  - apply select_blocks_buttons.
  - intros v Hv. rewrite select_blocks_buttons in Hv.
    apply in_map_iff in Hv. destruct Hv as [[i e] [Ev Hin]].
    simpl in Ev. subst v. exists i, e. split; [exact Hin|]. split.
    + unfold handle_edit_select. rewrite parse_token_token. simpl.
      eexists. split; reflexivity.
    + unfold handle_edit_view. rewrite parse_token_token. simpl.
      apply update_expansion_text_id.
Qed.

Lemma edit_flow_buttons_witness :
  exists bs,
    handle_acronym (mkCommand (Some "edit x") "T1" None)
      (mkDb [mkRow 1 "X" "A" 0; mkRow 2 "X" "B" 0] 2) =
      [Ack; StoreCall (GetIdsAndExpansions "x");
       RespondBlocks bs Ephemeral false] /\
    button_values bs = ["1|x"; "2|x"].
Proof.
  destruct (edit_flow_buttons (mkCommand (Some "edit x") "T1" None)
              (mkDb [mkRow 1 "X" "A" 0; mkRow 2 "X" "B" 0] 2)
              "edit" "x" "T2" "U1" "new" [])
    as [bs [H1 [H2 _]]];
    [reflexivity|reflexivity|reflexivity|reflexivity|discriminate|].
  exists bs. split; [exact H1|exact H2].
Defined.

(** X26. The router acknowledges first and then answers each command
    exactly once, with a reply or a dialog.  The handlers of the select and
    confirm steps acknowledge first too; each has answered exactly once when
    it returns and has answered nothing when it raises. *)
Theorem handlers_answer_once (c : command) (trig v : string) (d : db) :
  (exists rest, handle_acronym c d = Ack :: rest /\ replies rest = 1%nat) /\
  (exists rest, fst (handle_edit_select trig v d) = Ack :: rest /\
     replies rest = match snd (handle_edit_select trig v d) with
                    | Returned => 1%nat
                    | Raised _ => 0%nat
                    end) /\
  (exists rest, fst (handle_delete_select v d) = Ack :: rest /\
     replies rest = match snd (handle_delete_select v d) with
                    | Returned => 1%nat
                    | Raised _ => 0%nat
                    end) /\
  (exists rest, snd (fst (handle_delete_confirm v d)) = Ack :: rest /\
     replies rest = match snd (handle_delete_confirm v d) with
                    | Returned => 1%nat
                    | Raised _ => 0%nat
                    end).
Proof.
  assert (Hsel : forall usage verb label style action cancel text,
    exists rest,
      select_flow usage verb label style action cancel text d = Ack :: rest /\
      replies rest = 1%nat).
  { intros. unfold select_flow.
    destruct (split_ws 2 text) as [|w0 [|t0 r0]];
      try (eexists; split; reflexivity).
    destruct (get_acronym_ids_and_expansions t0 d);
      eexists; split; reflexivity. }
  split; [|split; [|split]].
  - unfold handle_acronym.
    destruct (is_empty (strip (or_empty (cmd_text c))));
      [eexists; split; reflexivity|].
    destruct (startswith (lower (strip (or_empty (cmd_text c)))) "add");
      [eexists; split; reflexivity|].
    destruct (startswith (lower (strip (or_empty (cmd_text c)))) "delete");
      [apply Hsel|].
    destruct (startswith (lower (strip (or_empty (cmd_text c)))) "edit");
      [apply Hsel|].
    eexists. split; reflexivity.
  - unfold handle_edit_select.
    destruct (parse_token v) as [[x y]|]; eexists; split; reflexivity.
  - unfold handle_delete_select.
    destruct (parse_token v) as [[x y]|]; eexists; split; reflexivity.
  - unfold handle_delete_confirm.
    destruct (parse_token v) as [[x y]|]; [|eexists; split; reflexivity].
    destruct (py_int x) as [m|]; [|eexists; split; reflexivity].
    destruct (in_int64 m); eexists; split; reflexivity.
Qed.

(** X27. [delete] and [edit] without a match.  When the first token is
    [delete] or [edit] in any case and nothing follows it, the router answers
    with the usage of that subcommand; when a second token follows and the
    store lists nothing for it, the router answers that no definitions were
    found for the uppercased token.  Both answers go to the requester
    alone. *)
Theorem select_without_match (c : command) (d : db) :
  (is_subcommand "delete" (first_token (command_text c)) = true ->
   (List.length (split_ws 2 (command_text c)) = 1%nat ->
    handle_acronym c d =
      [Ack; Respond "Usage: `/wtf delete [acronym]`" Ephemeral false]) /\
   (forall w term0 rest,
      split_ws 2 (command_text c) = w :: term0 :: rest ->
      get_acronym_ids_and_expansions term0 d = [] ->
      handle_acronym c d =
        [Ack; StoreCall (GetIdsAndExpansions term0);
         Respond ("No definitions found for *" ++ upper term0 ++ "*.")
                 Ephemeral false])) /\
  (is_subcommand "edit" (first_token (command_text c)) = true ->
   (List.length (split_ws 2 (command_text c)) = 1%nat ->
    handle_acronym c d =
      [Ack; Respond "Usage: `/wtf edit [acronym]`" Ephemeral false]) /\
   (forall w term0 rest,
      split_ws 2 (command_text c) = w :: term0 :: rest ->
      get_acronym_ids_and_expansions term0 d = [] ->
      handle_acronym c d =
        [Ack; StoreCall (GetIdsAndExpansions term0);
         Respond ("No definitions found for *" ++ upper term0 ++ "*.")
                 Ephemeral false])).
Proof.
  assert (Hlow : forall name,
    is_subcommand name (first_token (command_text c)) = true ->
    exists r, lower (command_text c) = name ++ r).
  { intros name H. unfold is_subcommand in H. apply String.eqb_eq in H.
    destruct (first_token_prefix (or_empty (cmd_text c))) as [r E].
    fold (command_text c) in E. exists (lower r).
    rewrite E at 1. now rewrite lower_app, H. }
  assert (Hne : forall name r,
    lower (command_text c) = name ++ r -> name <> EmptyString ->
    is_empty (command_text c) = false).
  { intros name r E Hn. destruct (command_text c); [|reflexivity].
    simpl in E. destruct name; [congruence|discriminate E]. }
  split.
  - intros H. destruct (Hlow "delete" H) as [r E].
    pose proof (Hne "delete" r E ltac:(discriminate)) as Hn.
    unfold handle_acronym. fold (command_text c). rewrite Hn, E.
    change (startswith ("delete" ++ r) "add") with false.
    change (startswith ("delete" ++ r) "delete") with (String.prefix "" r).
    replace (String.prefix "" r) with true by (now destruct r).
    unfold select_flow. split.
    + intros Hlen.
      destruct (split_ws 2 (command_text c)) as [|w0 [|t0 r0]];
        simpl in Hlen; try lia; reflexivity.
    + intros w term0 rest Hs Hl. now rewrite Hs, Hl.
  - intros H. destruct (Hlow "edit" H) as [r E].
    pose proof (Hne "edit" r E ltac:(discriminate)) as Hn.
    unfold handle_acronym. fold (command_text c). rewrite Hn, E.
    change (startswith ("edit" ++ r) "add") with false.
    change (startswith ("edit" ++ r) "delete") with false.
    change (startswith ("edit" ++ r) "edit") with (String.prefix "" r).
    replace (String.prefix "" r) with true by (now destruct r).
    unfold select_flow. split.
    + intros Hlen.
      destruct (split_ws 2 (command_text c)) as [|w0 [|t0 r0]];
        simpl in Hlen; try lia; reflexivity.
    + intros w term0 rest Hs Hl. now rewrite Hs, Hl.
Qed.

Lemma select_without_match_witness :
  handle_acronym (mkCommand (Some " DELETE ") "T1" None) empty_db =
    [Ack; Respond "Usage: `/wtf delete [acronym]`" Ephemeral false] /\
  handle_acronym (mkCommand (Some "Edit zzz") "T1" None) empty_db =
    [Ack; StoreCall (GetIdsAndExpansions "zzz");
     Respond ("No definitions found for *" ++ upper "zzz" ++ "*.")
             Ephemeral false].
Proof.
  split.
  - apply (proj1 (proj1 (select_without_match
                    (mkCommand (Some " DELETE ") "T1" None) empty_db)
                    eq_refl)).
    reflexivity.
  - apply (proj2 (proj2 (select_without_match
                    (mkCommand (Some "Edit zzz") "T1" None) empty_db)
                    eq_refl) "Edit" "zzz" []);
      reflexivity.
Defined.

(** C8 fails on the code, by the defect of C7.  The text "ADDR" is a bare
    lookup: its only token is none of [add], [delete], [edit].  With a
    definition of ADDR in the store the lookup has a result, so the reply
    should go to the whole channel; the router opens the add dialog instead,
    sends no reply at all and does not read the store.  It does so on every
    text whose lowercase form starts with the letters [add].  The other half
    of the claim holds: an empty text gets the ephemeral usage help without a
    call into the store. *)
Theorem handle_acronym_lookup_behind_prefix :
  let d := mkDb [mkRow 1 "ADDR" "Address" 0] 1 in
  let c := mkCommand (Some "ADDR") "T1" (Some "C1") in
  (first_token (command_text c) = "ADDR" /\
   is_subcommand "add" (first_token (command_text c)) = false /\
   is_subcommand "delete" (first_token (command_text c)) = false /\
   is_subcommand "edit" (first_token (command_text c)) = false) /\
  get_acronyms (command_text c) d = ["Address"] /\
  handle_acronym c d = [Ack; ViewsOpen "T1" (add_view "C1" EmptyString)] /\
  reply_texts (handle_acronym c d) = [] /\
  forallb (fun e => negb (touches_store e)) (handle_acronym c d) = true /\
  (forall c' d',
     command_text c' <> EmptyString ->
     startswith (lower (command_text c')) "add" = true ->
     reply_texts (handle_acronym c' d') = [] /\
     forallb (fun e => negb (touches_store e)) (handle_acronym c' d') = true) /\
  (forall c' d',
     command_text c' = EmptyString ->
     handle_acronym c' d' =
       [Ack; Respond "Usage: `/wtf ATO` or `/wtf add`" Ephemeral false]).
Proof.
  cbv zeta. split; [now repeat split|].
  split; [reflexivity|]. split; [reflexivity|]. split; [reflexivity|].
  split; [reflexivity|]. split.
  - intros c' d' Hne Ha. rewrite (handle_acronym_add c' d' Hne Ha).
    now split.
  - intros c' d'. apply handle_acronym_empty.
Qed.
